(** * The firefly algorithm of [trunk/firefly.c]

    A shallow embedding of the C program and the proofs of its
    specification.  The embedding follows the source function by function:

    - a [double] is an IEEE 754 binary64 value ([spec_float] of the
      Standard Library with precision 53 and maximal exponent 1024), so
      that NaN, the infinities and the two zeros behave as in C;
    - an [int], [unsigned int] or [size_t] value is an integer of [Z] (or a
      [nat] where the source only counts with it), and every conversion
      between the three types is written out;
    - the three parallel arrays of a population are three lists, read and
      written by index; an access outside the array is undefined in C and
      gives [None] here;
    - the random generator, the clock, the files and the number of live
      populations form the [world] that the driver threads through. *)

From Stdlib Require Import ZArith Lia.
From Stdlib Require Import Floats.SpecFloat.
From stdpp Require Import base option list gmap strings.

Local Open Scope Z_scope.

(** ** Machine integers *)

Definition INT_MAX : Z := 2 ^ 31 - 1.
Definition INT_MIN : Z := - 2 ^ 31.
Definition UINT_MAX : Z := 2 ^ 32 - 1.

(** The largest population that [sort_flies] can index: below it
    [left + right] is always an [int]. *)
Definition SORT_MAX : Z := 2 ^ 30.

(** Conversion of an integer value to [int] (two's complement
    truncation, as every compiler for a 32-bit [int] implements it). *)
Definition to_int (z : Z) : Z := (z + 2 ^ 31) mod 2 ^ 32 - 2 ^ 31.

(** Conversion to [unsigned int] and to [size_t] (64 bits). *)
Definition to_uint (z : Z) : Z := z mod 2 ^ 32.
Definition to_size (z : Z) : Z := z mod 2 ^ 64.

(** Signed addition: an overflow is undefined behaviour. *)
Definition int_add (a b : Z) : option Z :=
  if decide (INT_MIN <= a + b <= INT_MAX) then Some (a + b) else None.

(** ** Doubles *)

Definition double : Type := spec_float.

Definition prec : Z := 53.
Definition emax : Z := 1024.

Definition d_add : double -> double -> double := SFadd prec emax.
Definition d_sub : double -> double -> double := SFsub prec emax.
Definition d_mul : double -> double -> double := SFmul prec emax.
Definition d_sqrt : double -> double := SFsqrt prec emax.
Definition d_neg : double -> double := SFopp.
Definition d_lt : double -> double -> bool := SFltb.
Definition d_le : double -> double -> bool := SFleb.
Definition d_gt (a b : double) : bool := SFltb b a.

Definition is_nan (d : double) : bool :=
  match d with S754_nan => true | _ => false end.

Arguments d_add : simpl never.
Arguments d_sub : simpl never.
Arguments d_mul : simpl never.
Arguments d_sqrt : simpl never.
Arguments d_neg : simpl never.
Arguments d_lt : simpl never.
Arguments d_le : simpl never.
Arguments d_gt : simpl never.

Declare Scope dbl_scope.
Delimit Scope dbl_scope with D.
Infix "+" := d_add : dbl_scope.
Infix "-" := d_sub : dbl_scope.
Infix "*" := d_mul : dbl_scope.
Notation "- x" := (d_neg x) : dbl_scope.
Infix "<?" := d_lt : dbl_scope.
Infix "<=?" := d_le : dbl_scope.
Infix ">?" := d_gt : dbl_scope.

(** The literals of the source: [0.0], [1] (converted to double), [.5],
    [0.2] (the nearest double, 0x1.999999999999ap-3) and [1.0]. *)
Definition d_zero : double := S754_zero false.
Definition d_one : double := S754_finite false 4503599627370496 (-52).
Definition d_half : double := S754_finite false 4503599627370496 (-53).
Definition d_0_2 : double := S754_finite false 7205759403792794 (-55).

(** ** Data model *)

Record point : Type := Point { pt_x : double; pt_y : double }.

Record ffly_population : Type := Pop {
  nfflies : nat;
  x_values : list double;
  y_values : list double;
  light_values : list double
}.

(** The objective function [obj_func]: it is handed the population and
    overwrites it in place. *)
Definition obj_func : Type := ffly_population -> ffly_population.

(** The state of the random generator: the recorded sequence it replays
    and the number of values drawn so far. *)
Record rng : Type := Rng { rng_stream : nat -> double; rng_pos : nat }.

(** Modelled from the spec: [my_rand] is declared in [firefly.h], which is
    not part of the sources.  The spec has it "supply uniform random
    doubles in [0,1)" from "an RNG replaying a fixed recorded sequence":
    a call returns the next value of the sequence. *)
Definition my_rand (g : rng) : double * rng :=
  (rng_stream g (rng_pos g), Rng (rng_stream g) (S (rng_pos g))).

(** What the driver acts on besides its populations. *)
Record world : Type := World {
  w_files : gmap string string;   (* file name -> contents *)
  w_rng : rng;                    (* the generator behind [my_rand] *)
  w_seed : Z;                     (* the seed handed to [srand] *)
  w_clock : Z;                    (* what [time(NULL)] returns *)
  w_allocated : nat               (* populations created and not released *)
}.

Definition set_files (w : world) (fs : gmap string string) : world :=
  World fs (w_rng w) (w_seed w) (w_clock w) (w_allocated w).
Definition set_rng (w : world) (g : rng) : world :=
  World (w_files w) g (w_seed w) (w_clock w) (w_allocated w).
Definition set_seed (w : world) (s : Z) : world :=
  World (w_files w) (w_rng w) s (w_clock w) (w_allocated w).
Definition set_allocated (w : world) (n : nat) : world :=
  World (w_files w) (w_rng w) (w_seed w) (w_clock w) n.

(** ** Arrays and loops *)

(** [a[i]] as an rvalue and [a[i] = v]; outside the array: [None]. *)
Definition aget (a : list double) (i : Z) : option double :=
  if decide (0 <= i) then a !! Z.to_nat i else None.

Definition aset (a : list double) (i : Z) (v : double) : option (list double) :=
  if decide (0 <= i < Z.of_nat (length a))
  then Some (<[Z.to_nat i := v]> a) else None.

Definition set_x (pop : ffly_population) (i : Z) (v : double) : option ffly_population :=
  a ← aset (x_values pop) i v;
  Some (Pop (nfflies pop) a (y_values pop) (light_values pop)).

Definition set_y (pop : ffly_population) (i : Z) (v : double) : option ffly_population :=
  a ← aset (y_values pop) i v;
  Some (Pop (nfflies pop) (x_values pop) a (light_values pop)).

Definition set_light (pop : ffly_population) (i : Z) (v : double) : option ffly_population :=
  a ← aset (light_values pop) i v;
  Some (Pop (nfflies pop) (x_values pop) (y_values pop) a).

(** [for (i = start; ...; i++) body], run [count] times. *)
Fixpoint for_range {St : Type} (body : Z -> St -> option St)
    (i : Z) (count : nat) (s : St) : option St :=
  match count with
  | O => Some s
  | S c => s' ← body i s; for_range body (i + 1) c s'
  end.

(** [for (i = 0; i < n; i++)] with an [unsigned int] counter and a
    [size_t] bound: beyond [UINT_MAX] the counter wraps to 0 before it
    reaches the bound and the loop does not exit, so there is no result. *)
Definition uint_for {St : Type} (n : nat) (body : Z -> St -> option St)
    (s : St) : option St :=
  if decide (Z.of_nat n <= UINT_MAX) then for_range body 0 n s else None.

(** [memcpy(dst, src, n * sizeof(double))] *)
Definition memcpy (dst src : list double) (n : nat) : option (list double) :=
  if decide ((n <= length src)%nat /\ (n <= length dst)%nat)
  then Some (take n src ++ drop n dst) else None.

(** ** init_fflies, destroy_fflies *)

Definition init_body (xrange yrange : double) (min : point) (i : Z)
    (st : ffly_population * world) : option (ffly_population * world) :=
  let '(pop, w) := st in
  let '(u, g) := my_rand (w_rng w) in
  pop ← set_x pop i (u * xrange + pt_x min)%D;
  let '(v, g) := my_rand g in
  pop ← set_y pop i (v * yrange + pt_y min)%D;
  pop ← set_light pop i d_zero;
  Some (pop, set_rng w g).

(** [malloc] and [calloc] are taken to succeed (the source does not test
    their results); [calloc] zeroes the arrays. *)
Definition init_fflies (ncount : nat) (min max : point) (w : world)
    : option (ffly_population * world) :=
  let pop := Pop ncount (replicate ncount d_zero) (replicate ncount d_zero)
                 (replicate ncount d_zero) in
  let w := set_allocated w (S (w_allocated w)) in
  let xrange := (pt_x max - pt_x min)%D in
  let yrange := (pt_y max - pt_y min)%D in
  uint_for ncount (init_body xrange yrange min) (pop, w).

Definition destroy_fflies (pop : ffly_population) (w : world) : world :=
  set_allocated w (pred (w_allocated w)).

(** ** fix_positions *)

Definition fix_body (min max : point) (i : Z) (pop : ffly_population)
    : option ffly_population :=
  x ← aget (x_values pop) i;
  pop ← (if (x <? pt_x min)%D then set_x pop i (pt_x min) else Some pop);
  x ← aget (x_values pop) i;
  pop ← (if (x >? pt_x max)%D then set_x pop i (pt_x max) else Some pop);
  y ← aget (y_values pop) i;
  pop ← (if (y <? pt_y min)%D then set_y pop i (pt_y min) else Some pop);
  y ← aget (y_values pop) i;
  if (y >? pt_y max)%D then set_y pop i (pt_y max) else Some pop.

Definition fix_positions (pop : ffly_population) (min max : point)
    : option ffly_population :=
  uint_for (nfflies pop) (fix_body min max) pop.

(** ** swap, partition, sort_flies *)

(** [swap(&a[i], &a[j])] *)
Definition swap (a : list double) (i j : Z) : option (list double) :=
  temp ← aget a i;
  d2 ← aget a j;
  a ← aset a i d2;
  aset a j temp.

(** The three swaps that the source always performs together. *)
Definition swap_fflies (pop : ffly_population) (i j : Z) : option ffly_population :=
  ls ← swap (light_values pop) i j;
  xs ← swap (x_values pop) i j;
  ys ← swap (y_values pop) i j;
  Some (Pop (nfflies pop) xs ys ls).

Definition partition_body (intensity : double) (i : Z)
    (st : ffly_population * Z) : option (ffly_population * Z) :=
  let '(pop, idx) := st in
  li ← aget (light_values pop) i;
  if (li <=? intensity)%D
  then pop ← swap_fflies pop i idx; Some (pop, to_size (idx + 1))
  else Some (pop, idx).

(** [left], [right] and [pivot] are [int]s; [i] is an [unsigned int]
    compared with [right] as unsigned; [idx] is a [size_t]. *)
Definition partition (pop : ffly_population) (left right pivot : Z)
    : option (ffly_population * Z) :=
  intensity ← aget (light_values pop) pivot;
  pop ← swap_fflies pop pivot right;
  let idx := to_size left in
  '(pop, idx) ← for_range (partition_body intensity) (to_uint left)
                   (Z.to_nat (to_uint right - to_uint left)) (pop, idx);
  pop ← swap_fflies pop idx right;
  Some (pop, idx).

(** The recursion of [sort_flies] is not structural: [fuel] bounds its
    depth, and [None] is also the answer when the fuel runs out.  [pivot]
    is a [size_t]; [pivot - 1] and [pivot + 1] are computed in [size_t] and
    converted to the [int] parameters of the recursive calls. *)
Fixpoint sort_flies (fuel : nat) (pop : ffly_population) (left right : Z)
    : option ffly_population :=
  if decide (right > left) then
    match fuel with
    | O => None
    | S fuel =>
        s ← int_add left right;
        let pivot := to_size (Z.quot s 2) in
        '(pop, pivot) ← partition pop left right (to_int pivot);
        pop ← sort_flies fuel pop left (to_int (to_size (pivot - 1)));
        sort_flies fuel pop (to_int (to_size (pivot + 1))) right
    end
  else Some pop.

Section Externals.

(** [exp] of the C library. *)
Variable exp : double -> double.

(** The conversion ["%.2lf"] of [fprintf]. *)
Variable fmt_2lf : double -> string.

(** ** move_fflies *)

Definition beta0 : double := d_one.

Record move_state : Type := MoveState {
  ms_pop : ffly_population;       (* [pop], being moved *)
  ms_old : ffly_population;       (* [pop_old], the snapshot *)
  ms_rng : rng
}.

(** The body of the inner loop, for the pair (i, j). *)
Definition attract_body (alpha gamma : double) (i j : Z) (st : move_state)
    : option move_state :=
  let pop := ms_pop st in
  let pop_old := ms_old st in
  if decide (j = i) then Some st else
  li ← aget (light_values pop) i;
  lj ← aget (light_values pop_old) j;
  if (li <? lj)%D then
    xi ← aget (x_values pop) i;
    xj ← aget (x_values pop_old) j;
    let xdist := (xi - xj)%D in
    yi ← aget (y_values pop) i;
    yj ← aget (y_values pop_old) j;
    let ydist := (yi - yj)%D in
    let r := d_sqrt ((xdist * xdist) + (ydist * ydist))%D in
    let beta := (beta0 * exp ((- gamma) * (r * r)))%D in
    xi ← aget (x_values pop) i;
    xj ← aget (x_values pop_old) j;
    let '(u, g) := my_rand (ms_rng st) in
    pop ← set_x pop i (((d_one - beta) * xi) + (beta * xj) + (alpha * (u - d_half)))%D;
    yi ← aget (y_values pop) i;
    yj ← aget (y_values pop_old) j;
    let '(v, g) := my_rand g in
    pop ← set_y pop i (((d_one - beta) * yi) + (beta * yj) + (alpha * (v - d_half)))%D;
    Some (MoveState pop pop_old g)
  else Some st.

(** The two nested loops; [nflies] is the [int] copy of [pop->nfflies]. *)
Definition move_loops (alpha gamma : double) (pop pop_old : ffly_population)
    (g : rng) : option move_state :=
  let nflies := to_int (Z.of_nat (nfflies pop)) in
  for_range
    (fun i => for_range (attract_body alpha gamma i) 0 (Z.to_nat nflies))
    0 (Z.to_nat nflies) (MoveState pop pop_old g).

Definition move_fflies (pop pop_old : ffly_population) (alpha gamma : double)
    (min max : point) (g : rng) : option move_state :=
  st ← move_loops alpha gamma pop pop_old g;
  pop ← fix_positions (ms_pop st) min max;
  Some (MoveState pop (ms_old st) (ms_rng st)).

(** ** output_points *)

Definition newline : string := String (Ascii.ascii_of_nat 10) EmptyString.

Definition fprintf (fname : string) (text : string) (w : world) : world :=
  set_files w (alter (fun c => c +:+ text) fname (w_files w)).

Definition output_body (pop : ffly_population) (fname : string) (i : Z)
    (w : world) : option world :=
  x ← aget (x_values pop) i;
  y ← aget (y_values pop) i;
  Some (fprintf fname (fmt_2lf x +:+ " " +:+ fmt_2lf y +:+ newline) w).

(** [fopen(fname, "wt")] creates the file or truncates it; it is taken to
    succeed (on a failure the source passes NULL to [fclose]). *)
Definition output_points (pop : ffly_population) (fname : string) (w : world)
    : option world :=
  let w := set_files w (<[fname := ""]> (w_files w)) in
  uint_for (nfflies pop) (output_body pop fname) w.

(** ** ffa *)

Record run : Type := Run {
  r_fflies : ffly_population;
  r_fflies_old : ffly_population;
  r_world : world
}.

(** One turn of the loop of [ffa]: snapshot, evaluate, move. *)
Definition ffa_body (size : nat) (f : obj_func) (alpha gamma : double)
    (min max : point) (i : Z) (st : run) : option run :=
  let fflies := r_fflies st in
  let fflies_old := r_fflies_old st in
  xs ← memcpy (x_values fflies_old) (x_values fflies) size;
  ys ← memcpy (y_values fflies_old) (y_values fflies) size;
  ls ← memcpy (light_values fflies_old) (light_values fflies) size;
  let fflies_old := Pop (nfflies fflies_old) xs ys ls in
  let fflies := f fflies in
  ms ← move_fflies fflies fflies_old alpha gamma min max (w_rng (r_world st));
  Some (Run (ms_pop ms) (ms_old ms) (set_rng (r_world st) (ms_rng ms))).

(** The returned point [p] is never assigned in the source; the model
    returns the final state of the run instead. *)
Definition ffa (nfireflies niteration : nat) (min max : point) (f : obj_func)
    (w : world) : option run :=
  let alpha := d_0_2 in
  let gamma := d_one in
  let w := set_seed w (w_clock w) in
  '(fflies, w) ← init_fflies nfireflies min max w;
  '(fflies_old, w) ← init_fflies nfireflies min max w;
  let size := nfireflies in
  w ← output_points fflies "start.dat" w;
  st ← uint_for niteration (ffa_body size f alpha gamma min max)
         (Run fflies fflies_old w);
  w ← output_points (r_fflies st) "end.dat" (r_world st);
  Some (Run (r_fflies st) (r_fflies_old st) w).

End Externals.

(** * Specification vocabulary *)

(** A population as the program builds it: the three arrays have
    [nfflies] elements, and [nfflies] fits the [int] that [move_fflies]
    copies it to. *)
Definition wf_pop (p : ffly_population) : Prop :=
  Z.of_nat (nfflies p) <= INT_MAX /\
  length (x_values p) = nfflies p /\
  length (y_values p) = nfflies p /\
  length (light_values p) = nfflies p.

(** What the two tests of [fix_positions] do to one coordinate. *)
Definition clamp (lo hi v : double) : double :=
  let v := if (v <? lo)%D then lo else v in
  if (v >? hi)%D then hi else v.

(** A coordinate within bounds. *)
Definition within (lo hi v : double) : Prop :=
  (lo <=? v)%D = true /\ (v <=? hi)%D = true.

(** Containment as the specification words it: every individual has
    [min.x <= x[i] <= max.x] and [min.y <= y[i] <= max.y]. *)
Definition contained (min max : point) (p : ffly_population) : Prop :=
  (forall (i : nat) (v : double), x_values p !! i = Some v ->
     within (pt_x min) (pt_x max) v) /\
  (forall (i : nat) (v : double), y_values p !! i = Some v ->
     within (pt_y min) (pt_y max) v).

(** Containment of the coordinates that are numbers. *)
Definition contained_numbers (min max : point) (p : ffly_population) : Prop :=
  (forall (i : nat) (v : double), x_values p !! i = Some v ->
     is_nan v = false -> within (pt_x min) (pt_x max) v) /\
  (forall (i : nat) (v : double), y_values p !! i = Some v ->
     is_nan v = false -> within (pt_y min) (pt_y max) v).

(** A rectangle whose corners are ordered on both axes. *)
Definition ordered_rect (min max : point) : Prop :=
  (pt_x min <=? pt_x max)%D = true /\ (pt_y min <=? pt_y max)%D = true.

(** The individuals of a population, as (x, y, intensity) tuples. *)
Definition tuples (p : ffly_population) : list (double * double * double) :=
  zip (zip (x_values p) (y_values p)) (light_values p).

(** Exchanging the elements at two positions of a list. *)
Definition swap_list {A : Type} (T : list A) (i j : nat) : list A :=
  match T !! i, T !! j with
  | Some a, Some b => <[j := a]> (<[i := b]> T)
  | _, _ => T
  end.

(** [swaps l h T T']: [T'] is reached from [T] by exchanges of elements
    at positions of the range [l, h). *)
Inductive swaps {A : Type} (l h : nat) : list A -> list A -> Prop :=
  | swaps_refl (T : list A) : swaps l h T T
  | swaps_step (T T' : list A) (i j : nat) :
      (l <= i < h)%nat -> (l <= j < h)%nat -> (h <= length T)%nat ->
      swaps l h (swap_list T i j) T' -> swaps l h T T'.

(** A sequence of intensities that never decreases: a later element is
    never below an earlier one, and the two are in order [<=] whenever
    both are numbers. *)
Definition nondecreasing (ls : list double) : Prop :=
  forall (i j : nat) (a b : double),
    (i < j)%nat -> ls !! i = Some a -> ls !! j = Some b ->
    (b <? a)%D = false /\
    (is_nan a = false -> is_nan b = false -> (a <=? b)%D = true).

(** No descent of the intensity within the range [l, h) of a list of
    tuples. *)
Definition sorted_range (l h : nat) (T : list (double * double * double)) : Prop :=
  forall (i j : nat) (a b : double * double * double),
    (l <= i)%nat -> (i < j)%nat -> (j < h)%nat ->
    T !! i = Some a -> T !! j = Some b -> (b.2 <? a.2)%D = false.

(** The state of the loop of [partition] before the turn for index [i]:
    the tuples up to [idx] are at or below the pivot, those from [idx] up
    to [i] are not, and the pivot waits at [r]. *)
Definition partition_inv (n l r : nat) (T0 : list (double * double * double))
    (tp : double * double * double) (i : nat) (st : ffly_population * Z) : Prop :=
  exists idx : nat,
    st.2 = Z.of_nat idx /\ (l <= idx <= i)%nat /\
    wf_pop st.1 /\ nfflies st.1 = n /\
    swaps l (S r) T0 (tuples st.1) /\
    tuples st.1 !! r = Some tp /\
    (forall k a, (l <= k < idx)%nat -> tuples st.1 !! k = Some a ->
       (a.2 <=? tp.2)%D = true) /\
    (forall k a, (idx <= k < i)%nat -> tuples st.1 !! k = Some a ->
       (a.2 <=? tp.2)%D = false).

(** ** The movement rule, as the specification words it *)

Section MovementRule.

Variable exp : double -> double.

(** The individuals of a population: position and intensity. *)
Definition individuals (p : ffly_population) : list (point * double) :=
  zip (zip_with Point (x_values p) (y_values p)) (light_values p).

(** "r is the Euclidean distance from the current position of i to the
    previous position of j" *)
Definition spec_distance (cur prev : point) : double :=
  d_sqrt (((pt_x cur - pt_x prev) * (pt_x cur - pt_x prev))
          + ((pt_y cur - pt_y prev) * (pt_y cur - pt_y prev)))%D.

(** "beta = beta0 * exp(-gamma * r^2)" *)
Definition spec_beta (gamma r : double) : double :=
  (beta0 * exp ((- gamma) * (r * r)))%D.

(** "(1-beta)*current[i] + beta*previous[j] + alpha*(rand()-0.5)", for one
    coordinate and one drawn value [u]. *)
Definition spec_blend (alpha beta c p u : double) : double :=
  (((d_one - beta) * c) + (beta * p) + (alpha * (u - d_half)))%D.

(** The position of i "is replaced componentwise": x first, then y, each
    with its own call of the generator. *)
Definition spec_update (alpha gamma : double) (cur prev : point) (g : rng)
    : point * rng :=
  let beta := spec_beta gamma (spec_distance cur prev) in
  let '(u, g) := my_rand g in
  let '(v, g) := my_rand g in
  (Point (spec_blend alpha beta (pt_x cur) (pt_x prev) u)
         (spec_blend alpha beta (pt_y cur) (pt_y prev) v), g).

(** What the pair (i, j) does to the position of i: "for each j != i, if
    the current intensity of i is strictly less than the previous intensity
    of j", the update. *)
Definition spec_pair (alpha gamma : double) (i j : nat) (li : double)
    (prev : point * double) (cur : point) (g : rng) : point * rng :=
  if decide (j <> i)
  then if (li <? prev.2)%D then spec_update alpha gamma cur prev.1 g
       else (cur, g)
  else (cur, g).

(** "for that i, each j in order": a fold over the individuals of the
    snapshot, from index [j] on, that accumulates the position of i. *)
Fixpoint spec_inner (alpha gamma : double) (i : nat) (li : double) (j : nat)
    (prev : list (point * double)) (cur : point) (g : rng) : point * rng :=
  match prev with
  | [] => (cur, g)
  | q :: rest =>
      let '(cur, g) := spec_pair alpha gamma i j li q cur g in
      spec_inner alpha gamma i li (S j) rest cur g
  end.

(** "for each i in order": the individuals of the current population, from
    index [i] on, one after the other against the whole snapshot. *)
Fixpoint spec_outer (alpha gamma : double) (i : nat)
    (cur prev : list (point * double)) (g : rng) : list point * rng :=
  match cur with
  | [] => ([], g)
  | (p, li) :: rest =>
      let '(p', g) := spec_inner alpha gamma i li 0 prev p g in
      let '(ps, g) := spec_outer alpha gamma (S i) rest prev g in
      (p' :: ps, g)
  end.

(** The state after the movement rule: new positions, the intensities and
    the snapshot as they were. *)
Definition spec_move (alpha gamma : double) (cur prev : ffly_population)
    (g : rng) : move_state :=
  let '(ps, g) := spec_outer alpha gamma 0 (individuals cur) (individuals prev) g in
  MoveState (Pop (nfflies cur) (map pt_x ps) (map pt_y ps) (light_values cur))
            prev g.

End MovementRule.

(** The population with the position of individual [i] overwritten. *)
Definition set_pos (pop : ffly_population) (i : nat) (p : point) : ffly_population :=
  Pop (nfflies pop) (<[i := pt_x p]> (x_values pop))
      (<[i := pt_y p]> (y_values pop)) (light_values pop).

(** ** The output format and the objective function *)

Section FileFormat.

Variable fmt_2lf : double -> string.

(** "one line per individual, two space-separated values [...] x then y" *)
Definition file_line (x y : double) : string :=
  fmt_2lf x +:+ " " +:+ fmt_2lf y +:+ newline.

Definition file_text (pop : ffly_population) : string :=
  foldl (fun text line => text +:+ line) ""
        (zip_with file_line (x_values pop) (y_values pop)).

End FileFormat.

(** An objective function that leaves the size of the population and of
    its arrays alone. *)
Definition keeps_shape (f : obj_func) : Prop :=
  forall p, wf_pop p -> wf_pop (f p) /\ nfflies (f p) = nfflies p.

(** What [init_fflies] leaves of the world. *)
Definition init_frame (n k : nat) (w : world) (st : ffly_population * world) : Prop :=
  nfflies st.1 = n /\ length (x_values st.1) = n /\ length (y_values st.1) = n /\
  light_values st.1 = replicate n d_zero /\
  w_files st.2 = w_files w /\ w_allocated st.2 = S (w_allocated w) /\
  w_seed st.2 = w_seed w /\ w_clock st.2 = w_clock w /\
  rng_stream (w_rng st.2) = rng_stream (w_rng w) /\
  rng_pos (w_rng st.2) = (rng_pos (w_rng w) + 2 * k)%nat.

(** ** Rejected configurations *)

(** A configuration that the specification wants rejected: a population
    size or an iteration count that is not positive, or a rectangle with
    min >= max on an axis. *)
Definition invalid_config (n T : nat) (min max : point) : Prop :=
  n = O \/ T = O \/
  (pt_x max <=? pt_x min)%D = true \/ (pt_y max <=? pt_y min)%D = true.

(** A run that did no work: "no population is created and no output is
    written". *)
Definition no_work_done (w : world) (r : run) : Prop :=
  w_allocated (r_world r) = w_allocated w /\ w_files (r_world r) = w_files w.

(** ** Two runs side by side *)

(** Two generators that replay the same recorded sequence from the same
    position. *)
Definition rng_eqv (g1 g2 : rng) : Prop :=
  rng_pos g1 = rng_pos g2 /\ forall k, rng_stream g1 k = rng_stream g2 k.

(** Two worlds whose generators replay the same sequence and whose files
    of the given names have the same contents (or are both absent). *)
Definition same_output (names : list string) (w1 w2 : world) : Prop :=
  rng_eqv (w_rng w1) (w_rng w2) /\
  forall name, name ∈ names -> w_files w1 !! name = w_files w2 !! name.

Definition same_moves (s1 s2 : move_state) : Prop :=
  ms_pop s1 = ms_pop s2 /\ ms_old s1 = ms_old s2 /\
  rng_eqv (ms_rng s1) (ms_rng s2).

Definition same_init (names : list string)
    (s1 s2 : ffly_population * world) : Prop :=
  s1.1 = s2.1 /\ same_output names s1.2 s2.2.

Definition same_run (names : list string) (r1 r2 : run) : Prop :=
  r_fflies r1 = r_fflies r2 /\ r_fflies_old r1 = r_fflies_old r2 /\
  same_output names (r_world r1) (r_world r2).


(** ** What [init_fflies] draws, and how often [move_fflies] draws *)

(** The coordinates that [init_fflies] gives individual [i] when the
    generator is in state [g]: the values number 2i and 2i+1 from there,
    scaled to the rectangle. *)
Definition init_x (g : rng) (min max : point) (i : nat) : double :=
  (rng_stream g (rng_pos g + 2 * i) * (pt_x max - pt_x min) + pt_x min)%D.

Definition init_y (g : rng) (min max : point) (i : nat) : double :=
  (rng_stream g (rng_pos g + 2 * i + 1) * (pt_y max - pt_y min) + pt_y min)%D.

(** The number of individuals of the snapshot, other than number [i], that
    are brighter than the intensity [li]; and the number of pairs (i, j)
    with j <> i and the current intensity of i below the snapshot
    intensity of j. *)
Definition brighter_than (i : nat) (li : double) (prev : list double) : nat :=
  length (filter (fun p : nat * double => p.1 <> i /\ (li <? p.2)%D = true)
                 (imap pair prev)).

Definition attractions (cur prev : list double) : nat :=
  sum_list (imap (fun i li => brighter_than i li prev) cur).

(** ** Sample inputs *)

Definition d_two : double := S754_finite false 4503599627370496 (-51).

Definition unit_min : point := Point d_zero d_zero.
Definition unit_max : point := Point d_one d_one.

Definition sample_pop : ffly_population :=
  Pop 3 [d_two; d_half; d_one] [d_zero; d_one; d_two] [d_one; d_zero; d_half].

(** A generator that always returns 0.5, and a second population to act
    as a snapshot. *)
Definition half_rng : rng := Rng (fun _ => d_half) 0.

Definition sample_old : ffly_population :=
  Pop 3 [d_zero; d_one; d_half] [d_one; d_half; d_zero] [d_two; d_one; d_zero].

(** A stand-in for [exp] of the C library where a concrete function is
    needed: the constant 1. *)
Definition const_exp (x : double) : double := d_one.

(** A rectangle whose corners are in the wrong order on the x axis, and
    what [fix_positions] makes of [sample_pop] in it. *)
Definition inverted_min : point := Point d_one d_zero.
Definition inverted_max : point := Point d_zero d_one.

Definition inverted_result : ffly_population :=
  Pop 3 [d_zero; d_zero; d_zero] [d_zero; d_one; d_one] [d_one; d_zero; d_half].

(** A world without files, and a stand-in for the conversion ["%.2lf"]
    where a concrete one is needed. *)
Definition empty_world : world := World ∅ half_rng 0 0 0.

Definition const_fmt (d : double) : string := "0.50".

Definition same_obj : obj_func := fun p => p.

(** A sequence kept as a list and continued with a default value; a
    second recording of the sequence that [half_rng] replays; and a world
    that differs from [empty_world] in its clock, its seed and its files. *)
Definition replay (recorded : list double) (d : double) (k : nat) : double :=
  default d (recorded !! k).

Definition half_rng' : rng := Rng (replay (replicate 64 d_half) d_half) 0.

Definition other_world : world :=
  World {[ "start.dat" := "old text"; "notes.txt" := "kept" ]} half_rng' 5 1700000000 4.

(** A population with an intensity that is not a number. *)
Definition nan_pop : ffly_population :=
  Pop 2 [d_one; d_two] [d_one; d_two] [S754_nan; d_one].

(** A population with a coordinate that is not a number. *)
Definition nan_xy_pop : ffly_population :=
  Pop 2 [S754_nan; d_two] [d_half; S754_nan] [d_zero; d_one].

(** A population that is everywhere at least as bright as [sample_pop],
    and two populations of one individual. *)
Definition rest_pop : ffly_population :=
  Pop 3 [d_zero; d_half; d_one] [d_one; d_half; d_zero] [d_two; d_two; d_one].

Definition single_pop : ffly_population := Pop 1 [d_half] [d_half] [d_zero].
Definition single_old : ffly_population := Pop 1 [d_one] [d_zero] [d_two].

(** An objective function: the intensity of an individual is the
    negation of its x coordinate. *)
Definition dim_obj : obj_func :=
  fun p => Pop (nfflies p) (x_values p) (y_values p) (d_neg <$> x_values p).

(** * Properties *)

(** ** The order of doubles *)

Section DoubleOrder.

Local Ltac cmp_cases :=
  change (Pos.compare_cont Eq) with Pos.compare in *;
  repeat match goal with
  | H : context [Z.compare ?a ?b] |- _ =>
      destruct (Z.compare_spec a b); simpl in H
  | H : context [Pos.compare ?a ?b] |- _ =>
      destruct (Pos.compare_spec a b); simpl in H
  | |- context [Z.compare ?a ?b] =>
      destruct (Z.compare_spec a b); simpl
  | |- context [Pos.compare ?a ?b] =>
      destruct (Pos.compare_spec a b); simpl
  end;
  try first [ discriminate | reflexivity | lia ].

Local Ltac by_cases3 a b c :=
  unfold d_lt, d_le, d_gt, SFltb, SFleb, SFcompare, is_nan;
  destruct a as [[]|[]| |[] ? ?], b as [[]|[]| |[] ? ?],
           c as [[]|[]| |[] ? ?];
  simpl; intros; try first [ discriminate | reflexivity ]; cmp_cases.

Local Ltac by_cases2 a b :=
  unfold d_lt, d_le, d_gt, SFltb, SFleb, SFcompare, is_nan;
  destruct a as [[]|[]| |[] ? ?], b as [[]|[]| |[] ? ?];
  simpl; intros; try first [ discriminate | reflexivity ]; cmp_cases.

Lemma d_lt_irrefl (a : double) : (a <? a)%D = false.
Proof.
  unfold d_lt, SFltb, SFcompare.
  destruct a as [[]|[]| |[] m e]; simpl; try reflexivity;
    rewrite Z.compare_refl; change (Pos.compare_cont Eq m m) with (Pos.compare m m);
    rewrite Pos.compare_refl; reflexivity.
Qed.

Lemma d_le_refl (a : double) : is_nan a = false -> (a <=? a)%D = true.
Proof.
  unfold d_le, SFleb, SFcompare, is_nan.
  destruct a as [[]|[]| |[] m e]; simpl; intros; try first [ discriminate | reflexivity ];
    rewrite Z.compare_refl; change (Pos.compare_cont Eq m m) with (Pos.compare m m);
    rewrite Pos.compare_refl; reflexivity.
Qed.

Lemma d_le_not_nan (a b : double) :
  (a <=? b)%D = true -> is_nan a = false /\ is_nan b = false.
Proof.
  unfold d_le, SFleb, SFcompare, is_nan.
  destruct a as [[]|[]| |[] ? ?], b as [[]|[]| |[] ? ?]; simpl; intros;
    first [ discriminate | split; reflexivity ].
Qed.

Lemma d_lt_not_nan (a b : double) :
  (a <? b)%D = true -> is_nan a = false /\ is_nan b = false.
Proof.
  unfold d_lt, SFltb, SFcompare, is_nan.
  destruct a as [[]|[]| |[] ? ?], b as [[]|[]| |[] ? ?]; simpl; intros;
    first [ discriminate | split; reflexivity ].
Qed.

Lemma d_lt_le (a b : double) : (a <? b)%D = true -> (a <=? b)%D = true.
Proof. revert a b. intros a b. by_cases2 a b. Qed.

Lemma d_le_not_lt (a b : double) : (a <=? b)%D = true -> (b <? a)%D = false.
Proof. by_cases2 a b. Qed.

Lemma d_not_lt_le (a b : double) :
  is_nan a = false -> is_nan b = false -> (b <? a)%D = false -> (a <=? b)%D = true.
Proof. by_cases2 a b. Qed.

Lemma d_not_le_lt (a b : double) :
  is_nan a = false -> is_nan b = false -> (a <=? b)%D = false -> (b <? a)%D = true.
Proof. by_cases2 a b. Qed.

Lemma d_le_trans (a b c : double) :
  (a <=? b)%D = true -> (b <=? c)%D = true -> (a <=? c)%D = true.
Proof. by_cases3 a b c. Qed.

(** What a partition around [p] gives for an element [a] at or below the
    pivot and an element [b] not at or below it: no descent from [a] to
    [b], whether or not NaN is involved. *)
Lemma d_partition_sep (a b p : double) :
  (a <=? p)%D = true -> (b <=? p)%D = false -> (b <? a)%D = false.
Proof. by_cases3 a b p. Qed.

Lemma d_not_le_not_lt (b p : double) :
  (b <=? p)%D = false -> (b <? p)%D = false.
Proof. by_cases2 b p. Qed.

(** With the bounds in the wrong order every number is beyond one of
    them. *)
Lemma d_lt_inverted (lo hi v : double) :
  (hi <? lo)%D = true -> is_nan v = false -> (v <? lo)%D = false ->
  (hi <? v)%D = true.
Proof. by_cases3 lo hi v. Qed.

Lemma d_nan_not_lt (a b : double) :
  is_nan a = true -> (a <? b)%D = false /\ (b <? a)%D = false.
Proof.
  unfold d_lt, SFltb, SFcompare, is_nan.
  destruct a as [[]|[]| |[] ? ?]; try discriminate.
  intros _. by destruct b as [[]|[]| |[] ? ?].
Qed.

End DoubleOrder.

(** ** Arrays and loops *)

Lemma aget_nat (a : list double) (k : nat) : aget a (Z.of_nat k) = a !! k.
Proof.
  unfold aget. rewrite decide_True by lia. by rewrite Nat2Z.id.
Qed.

Lemma aset_nat (a : list double) (k : nat) (v : double) :
  (k < length a)%nat -> aset a (Z.of_nat k) v = Some (<[k := v]> a).
Proof.
  intros Hk. unfold aset. rewrite decide_True by lia. by rewrite Nat2Z.id.
Qed.

(** The invariant rule of a counted loop. *)
Lemma for_range_inv {St : Type} (Inv : nat -> St -> Prop)
    (body : Z -> St -> option St) (n : nat) :
  forall (k : nat) (s : St),
    Inv k s ->
    (forall (j : nat) (t : St), (k <= j < k + n)%nat -> Inv j t ->
       exists t', body (Z.of_nat j) t = Some t' /\ Inv (S j) t') ->
    exists s', for_range body (Z.of_nat k) n s = Some s' /\ Inv (k + n)%nat s'.
Proof.
  induction n as [|n IH]; intros k s Hs Hbody; simpl.
  - exists s. by rewrite Nat.add_0_r.
  - destruct (Hbody k s) as (t & Ht & Hinv); [lia | done |].
    rewrite Ht. simpl.
    destruct (IH (S k) t) as (s' & Hs' & Hfin); [done | |].
    + intros j u Hj. apply Hbody. lia.
    + exists s'. replace (Z.of_nat k + 1) with (Z.of_nat (S k)) by lia.
      split; [done |]. by replace (k + S n)%nat with (S k + n)%nat by lia.
Qed.

Lemma uint_for_inv {St : Type} (Inv : nat -> St -> Prop)
    (body : Z -> St -> option St) (n : nat) (s : St) :
  Z.of_nat n <= UINT_MAX ->
  Inv O s ->
  (forall (j : nat) (t : St), (j < n)%nat -> Inv j t ->
     exists t', body (Z.of_nat j) t = Some t' /\ Inv (S j) t') ->
  exists s', uint_for n body s = Some s' /\ Inv n s'.
Proof.
  intros Hn Hs Hbody. unfold uint_for. rewrite decide_True by done.
  destruct (for_range_inv Inv body n O s) as (s' & Hs' & Hfin); [done | |].
  - intros j t Hj. apply Hbody. lia.
  - by exists s'.
Qed.

(** Overwriting position [k] of a list whose first [k] elements were
    already mapped extends the mapped prefix by one. *)
Lemma insert_mapped_prefix (f : double -> double) (l : list double)
    (k : nat) (v : double) :
  l !! k = Some v ->
  <[k := f v]> (map f (take k l) ++ drop k l)
  = map f (take (S k) l) ++ drop (S k) l.
Proof.
  intros Hk. pose proof (lookup_lt_Some _ _ _ Hk) as Hlt.
  rewrite (take_S_r _ _ _ Hk), (drop_S _ _ _ Hk), map_app. simpl.
  rewrite <- (assoc_L (++)). simpl.
  rewrite insert_app_r_alt by (rewrite length_map, length_take; lia).
  rewrite length_map, length_take.
  replace (k - k `min` length l)%nat with O by lia. done.
Qed.

Lemma lookup_mapped_prefix (f : double -> double) (l : list double) (k : nat) :
  (map f (take k l) ++ drop k l) !! k = l !! k.
Proof.
  destruct (decide (k < length l)%nat) as [Hlt|Hge].
  - rewrite lookup_app_r by (rewrite length_map, length_take; lia).
    rewrite length_map, length_take, lookup_drop. f_equal. lia.
  - rewrite !lookup_ge_None_2; [done | lia |].
    rewrite length_app, length_map, length_take, length_drop. lia.
Qed.

(** ** fix_positions *)

Lemma fix_body_spec (min max : point) (k : nat) (pop : ffly_population)
    (xk yk : double) :
  x_values pop !! k = Some xk ->
  y_values pop !! k = Some yk ->
  fix_body min max (Z.of_nat k) pop
  = Some (Pop (nfflies pop)
            (<[k := clamp (pt_x min) (pt_x max) xk]> (x_values pop))
            (<[k := clamp (pt_y min) (pt_y max) yk]> (y_values pop))
            (light_values pop)).
Proof.
  intros Hx Hy.
  pose proof (lookup_lt_Some _ _ _ Hx) as Hlx.
  pose proof (lookup_lt_Some _ _ _ Hy) as Hly.
  destruct pop as [n xs ys ls]. simpl in *.
  unfold fix_body, clamp, set_x, set_y. simpl.
  rewrite aget_nat, Hx. simpl.
  destruct (xk <? pt_x min)%D; simpl;
    [ rewrite aset_nat by done; simpl;
      rewrite aget_nat, list_lookup_insert_eq by done
    | rewrite aget_nat, Hx ]; simpl;
    (destruct (_ >? pt_x max)%D; simpl;
      [ rewrite aset_nat by (rewrite ?length_insert; done); simpl
      | ]);
    rewrite aget_nat, Hy; simpl;
    (destruct (yk <? pt_y min)%D; simpl;
      [ rewrite aset_nat by done; simpl;
        rewrite aget_nat, list_lookup_insert_eq by done
      | rewrite aget_nat, Hy ]; simpl;
      (destruct (_ >? pt_y max)%D; simpl;
        [ rewrite aset_nat by (rewrite ?length_insert; done); simpl
        | ]));
    rewrite ?list_insert_insert_eq;
    rewrite ?(list_insert_id xs k xk) by done;
    rewrite ?(list_insert_id ys k yk) by done;
    reflexivity.
Qed.

(** [fix_positions] clamps every coordinate and touches nothing else. *)
Lemma fix_positions_eq (pop : ffly_population) (min max : point) :
  wf_pop pop ->
  fix_positions pop min max
  = Some (Pop (nfflies pop)
            (map (clamp (pt_x min) (pt_x max)) (x_values pop))
            (map (clamp (pt_y min) (pt_y max)) (y_values pop))
            (light_values pop)).
Proof.
  intros (Hn & Hx & Hy & Hl).
  set (fx := clamp (pt_x min) (pt_x max)).
  set (fy := clamp (pt_y min) (pt_y max)).
  destruct (uint_for_inv
    (fun k p => p = Pop (nfflies pop)
                  (map fx (take k (x_values pop)) ++ drop k (x_values pop))
                  (map fy (take k (y_values pop)) ++ drop k (y_values pop))
                  (light_values pop))
    (fix_body min max) (nfflies pop) pop) as (p' & Hp' & Hfin).
  - unfold INT_MAX, UINT_MAX in *. lia.
  - by destruct pop.
  - intros j t Hj ->.
    destruct (lookup_lt_is_Some_2 (x_values pop) j) as [xj Hxj]; [lia|].
    destruct (lookup_lt_is_Some_2 (y_values pop) j) as [yj Hyj]; [lia|].
    eexists. split.
    + apply fix_body_spec with (xk := xj) (yk := yj); simpl;
        by rewrite lookup_mapped_prefix.
    + simpl. unfold fx, fy. by rewrite !insert_mapped_prefix.
  - unfold fix_positions. rewrite Hp', Hfin.
    rewrite !take_ge, !drop_ge, !app_nil_r by lia. done.
Qed.

Lemma clamp_idempotent (lo hi v : double) :
  clamp lo hi (clamp lo hi v) = clamp lo hi v.
Proof.
  pose proof (d_lt_irrefl lo) as Hlo. pose proof (d_lt_irrefl hi) as Hhi.
  unfold clamp, d_gt, d_lt in *.
  destruct (SFltb v lo) eqn:E1.
  - destruct (SFltb hi lo) eqn:E2.
    + by rewrite E2, E2.
    + by rewrite Hlo, E2.
  - destruct (SFltb hi v) eqn:E2.
    + destruct (SFltb hi lo) eqn:E3.
      * by rewrite E3.
      * by rewrite Hhi.
    + by rewrite E1, E2.
Qed.

Lemma clamp_within (lo hi v : double) :
  (lo <=? hi)%D = true ->
  is_nan (clamp lo hi v) = false ->
  within lo hi (clamp lo hi v).
Proof.
  intros Hle. destruct (d_le_not_nan _ _ Hle) as [Hnlo Hnhi].
  pose proof (d_le_not_lt _ _ Hle) as Hnlt.
  unfold clamp, within, d_gt, d_lt in *.
  destruct (SFltb v lo) eqn:E1.
  - rewrite Hnlt. intros _. split; [by apply d_le_refl | done].
  - destruct (SFltb hi v) eqn:E2; intros Hnv.
    + split; [done | by apply d_le_refl].
    + split; by apply d_not_lt_le.
Qed.

Lemma clamp_nan (lo hi v : double) :
  is_nan v = false -> is_nan lo = false -> is_nan hi = false ->
  is_nan (clamp lo hi v) = false.
Proof.
  intros Hv Hlo Hhi. unfold clamp.
  destruct (v <? lo)%D; by destruct (_ >? hi)%D.
Qed.

Lemma fix_positions_wf (pop : ffly_population) (min max : point) :
  wf_pop pop ->
  exists p', fix_positions pop min max = Some p' /\ wf_pop p' /\
             nfflies p' = nfflies pop /\
             light_values p' = light_values pop.
Proof.
  intros Hwf. eexists. split; [by apply fix_positions_eq |].
  destruct Hwf as (? & ? & ? & ?).
  repeat split; simpl; rewrite ?length_map; done.
Qed.

Lemma fix_positions_contained_numbers (pop p' : ffly_population) (min max : point) :
  wf_pop pop -> ordered_rect min max ->
  fix_positions pop min max = Some p' ->
  contained_numbers min max p'.
Proof.
  intros Hwf [Hx Hy]. rewrite fix_positions_eq by done. intros [= <-].
  split; simpl; intros i v Hv Hnan;
    apply list_lookup_fmap_Some in Hv as (u & -> & _); by apply clamp_within.
Qed.

(** ** Exchanges *)

Section Swaps.
Context {A : Type}.
Implicit Types T : list A.

Lemma swap_list_length T i j : length (swap_list T i j) = length T.
Proof.
  unfold swap_list. destruct (T !! i), (T !! j); by rewrite ?length_insert.
Qed.

Lemma swap_list_perm T i j : swap_list T i j ≡ₚ T.
Proof.
  unfold swap_list. destruct (T !! i) eqn:Hi, (T !! j) eqn:Hj; try done.
  by apply Permutation_insert_swap.
Qed.

Lemma swap_list_lookup T i j k :
  (i < length T)%nat -> (j < length T)%nat ->
  swap_list T i j !! k
  = if decide (k = j) then T !! i
    else if decide (k = i) then T !! j else T !! k.
Proof.
  intros Hi Hj. unfold swap_list.
  destruct (lookup_lt_is_Some_2 T i Hi) as [a Ha].
  destruct (lookup_lt_is_Some_2 T j Hj) as [b Hb].
  rewrite Ha, Hb.
  destruct (decide (k = j)) as [->|Hkj].
  - by rewrite list_lookup_insert_eq by (by rewrite length_insert).
  - rewrite list_lookup_insert_ne by done.
    destruct (decide (k = i)) as [->|Hki].
    + by rewrite list_lookup_insert_eq.
    + by rewrite list_lookup_insert_ne.
Qed.

Lemma swaps_one l h T i j :
  (l <= i < h)%nat -> (l <= j < h)%nat -> (h <= length T)%nat ->
  swaps l h T (swap_list T i j).
Proof.
  intros Hi Hj Hlen. apply swaps_step with (i := i) (j := j); try done.
  constructor.
Qed.

Lemma swaps_trans l h T1 T2 T3 :
  swaps l h T1 T2 -> swaps l h T2 T3 -> swaps l h T1 T3.
Proof.
  induction 1 as [|T T' i j Hi Hj Hlen Hs IH]; [done |]. intros H3.
  apply swaps_step with (i := i) (j := j); try done. by apply IH.
Qed.

Lemma swaps_mono l h l' h' T T' :
  (l' <= l)%nat -> (h <= h')%nat -> (h' <= length T)%nat ->
  swaps l h T T' -> swaps l' h' T T'.
Proof.
  intros Hl Hh Hlen Hs. induction Hs as [|T T' i j Hi Hj Hlen' Hs IH].
  - constructor.
  - eapply swaps_step with (i := i) (j := j); [lia | lia | done |].
    apply IH. by rewrite swap_list_length.
Qed.

Lemma swaps_length l h T T' : swaps l h T T' -> length T' = length T.
Proof.
  induction 1 as [|T T' i j Hi Hj Hlen Hs IH]; [done |].
  by rewrite IH, swap_list_length.
Qed.

Lemma swaps_perm l h T T' : swaps l h T T' -> T' ≡ₚ T.
Proof.
  induction 1 as [|T T' i j Hi Hj Hlen Hs IH]; [done |].
  by rewrite IH, swap_list_perm.
Qed.

(** Positions outside the range keep their element. *)
Lemma swaps_outside l h T T' k :
  swaps l h T T' -> (k < l \/ h <= k)%nat -> T' !! k = T !! k.
Proof.
  induction 1 as [|T T' i j Hi Hj Hlen Hs IH]; [done |]. intros Hk.
  rewrite IH by done. rewrite swap_list_lookup by lia.
  rewrite !decide_False by lia. done.
Qed.

(** What holds of every element of the range still does afterwards. *)
Lemma swaps_inside l h T T' (P : A -> Prop) :
  swaps l h T T' ->
  (forall k a, (l <= k < h)%nat -> T !! k = Some a -> P a) ->
  forall k a, (l <= k < h)%nat -> T' !! k = Some a -> P a.
Proof.
  induction 1 as [|T T' i j Hi Hj Hlen Hs IH]; [done |]. intros HP.
  apply IH. intros k a Hk. rewrite swap_list_lookup by lia.
  destruct (decide (k = j)) as [->|?]; [by apply HP |].
  destruct (decide (k = i)) as [->|?]; [by apply HP | by apply HP].
Qed.

End Swaps.

(** ** swap, partition *)

Lemma swap_spec (a : list double) (i j : nat) :
  (i < length a)%nat -> (j < length a)%nat ->
  swap a (Z.of_nat i) (Z.of_nat j) = Some (swap_list a i j).
Proof.
  intros Hi Hj. unfold swap, swap_list.
  destruct (lookup_lt_is_Some_2 a i Hi) as [u Hu].
  destruct (lookup_lt_is_Some_2 a j Hj) as [v Hv].
  rewrite !aget_nat, Hu, Hv. simpl.
  rewrite aset_nat by done. simpl.
  by rewrite aset_nat by (by rewrite length_insert).
Qed.

Lemma light_tuples (p : ffly_population) :
  wf_pop p -> light_values p = (snd <$> tuples p).
Proof.
  intros (_ & Hx & Hy & Hl). unfold tuples.
  rewrite snd_zip; [done |]. rewrite length_zip. lia.
Qed.

Lemma tuples_length (p : ffly_population) :
  wf_pop p -> length (tuples p) = nfflies p.
Proof.
  intros (_ & Hx & Hy & Hl). unfold tuples. rewrite !length_zip. lia.
Qed.

Lemma swap_list_zip {A B : Type} (l : list A) (k : list B) (i j : nat) :
  length l = length k ->
  swap_list (zip l k) i j = zip (swap_list l i j) (swap_list k i j).
Proof.
  intros Hlen. unfold swap_list.
  destruct (l !! i) as [a|] eqn:Hli.
  - destruct (lookup_lt_is_Some_2 k i) as [b Hki];
      [rewrite <- Hlen; by eapply lookup_lt_Some |].
    destruct (l !! j) as [a'|] eqn:Hlj.
    + destruct (lookup_lt_is_Some_2 k j) as [b' Hkj];
        [rewrite <- Hlen; by eapply lookup_lt_Some |].
      rewrite Hki, Hkj.
      rewrite (proj2 (lookup_zip_Some l k i a b)) by done.
      rewrite (proj2 (lookup_zip_Some l k j a' b')) by done.
      by rewrite !(insert_zip_with pair).
    + pose proof (lookup_ge_None_1 _ _ Hlj) as Hge.
      rewrite (lookup_ge_None_2 k j) by lia.
      rewrite (lookup_ge_None_2 (zip l k) j) by (rewrite length_zip; lia).
      rewrite Hki. by destruct (zip l k !! i).
  - pose proof (lookup_ge_None_1 _ _ Hli) as Hge.
    rewrite (lookup_ge_None_2 k i) by lia.
    by rewrite (lookup_ge_None_2 (zip l k) i) by (rewrite length_zip; lia).
Qed.

(** The three exchanges of the source move a tuple as a unit. *)
Lemma swap_fflies_spec (pop : ffly_population) (i j : nat) :
  wf_pop pop -> (i < nfflies pop)%nat -> (j < nfflies pop)%nat ->
  exists pop', swap_fflies pop (Z.of_nat i) (Z.of_nat j) = Some pop' /\
    wf_pop pop' /\ nfflies pop' = nfflies pop /\
    tuples pop' = swap_list (tuples pop) i j.
Proof.
  intros (Hn & Hx & Hy & Hl) Hi Hj. unfold swap_fflies.
  rewrite !swap_spec by lia. simpl. eexists. split; [done |].
  repeat split; simpl; rewrite ?swap_list_length; try done.
  unfold tuples. simpl.
  rewrite !swap_list_zip; [done | lia | rewrite length_zip; lia].
Qed.

Lemma to_uint_small (z : Z) : 0 <= z <= UINT_MAX -> to_uint z = z.
Proof. unfold to_uint, UINT_MAX. intros. apply Z.mod_small. lia. Qed.

Lemma to_size_small (z : Z) : 0 <= z <= INT_MAX -> to_size z = z.
Proof. unfold to_size, INT_MAX. intros. apply Z.mod_small. lia. Qed.

Lemma to_int_small (z : Z) : INT_MIN <= z <= INT_MAX -> to_int z = z.
Proof.
  unfold to_int, INT_MIN, INT_MAX. intros. rewrite Z.mod_small; lia.
Qed.

(** [pivot - 1] and [pivot + 1], computed in [size_t], arrive unchanged in
    the [int] parameter; in particular 0 - 1 arrives as -1. *)
Lemma to_int_to_size (z : Z) : -1 <= z <= INT_MAX -> to_int (to_size z) = z.
Proof.
  intros Hz. destruct (decide (z = -1)) as [->|Hne]; [done |].
  rewrite to_size_small by lia. apply to_int_small. unfold INT_MIN. lia.
Qed.

Lemma tuples_lookup_light (p : ffly_population) (k : nat) (v : double) :
  wf_pop p -> light_values p !! k = Some v ->
  exists t, tuples p !! k = Some t /\ t.2 = v.
Proof.
  intros Hwf. rewrite (light_tuples p Hwf), list_lookup_fmap.
  destruct (tuples p !! k) as [t|]; simpl; [|done].
  intros [= <-]. by exists t.
Qed.

Lemma light_lookup_tuples (p : ffly_population) (k : nat) (t : double * double * double) :
  wf_pop p -> tuples p !! k = Some t -> light_values p !! k = Some t.2.
Proof.
  intros Hwf Ht. by rewrite (light_tuples p Hwf), list_lookup_fmap, Ht.
Qed.

Lemma partition_body_inv (n l r : nat) T0 tp (j : nat) (st : ffly_population * Z) :
  (l <= j < r)%nat -> (r < n)%nat ->
  partition_inv n l r T0 tp j st ->
  exists st', partition_body tp.2 (Z.of_nat j) st = Some st' /\
              partition_inv n l r T0 tp (S j) st'.
Proof.
  intros Hj Hr. destruct st as [q idxZ].
  intros (idx & Hidx & Hrange & Hwf & Hn & Hsw & Hpiv & Hlow & Hhigh).
  simpl in *. subst idxZ.
  pose proof (tuples_length q Hwf) as HlenT.
  destruct (lookup_lt_is_Some_2 (tuples q) j) as [tj Htj]; [lia |].
  unfold partition_body.
  rewrite aget_nat, (light_lookup_tuples q j tj Hwf Htj). simpl.
  destruct (tj.2 <=? tp.2)%D eqn:Hcmp.
  - destruct (swap_fflies_spec q j idx Hwf) as (q' & Hq' & Hwf' & Hn' & HT');
      [lia | lia |].
    rewrite Hq'. simpl. eexists. split; [done |].
    exists (S idx). simpl.
    assert (Z.of_nat (nfflies q) <= INT_MAX) as Hmax by apply Hwf.
    split; [rewrite to_size_small; lia |].
    split; [lia |]. split; [done |]. split; [lia |].
    rewrite HT'.
    split; [eapply swaps_trans; [done | apply swaps_one; lia] |].
    split; [rewrite swap_list_lookup, !decide_False by lia; done |].
    split.
    + intros k a Hk. rewrite swap_list_lookup by lia.
      destruct (decide (k = idx)) as [->|Hne].
      * rewrite Htj. by intros [= <-].
      * rewrite decide_False by lia. apply Hlow. lia.
    + intros k a Hk. rewrite swap_list_lookup by lia.
      rewrite decide_False by lia.
      destruct (decide (k = j)) as [->|Hne]; apply Hhigh; lia.
  - eexists. split; [done |]. exists idx. simpl.
    repeat (split; [first [done | lia] |]).
    intros k a Hk. destruct (decide (k = j)) as [->|Hne].
    + rewrite Htj. by intros [= <-].
    + apply Hhigh. lia.
Qed.

(** [partition] on the range [l, r] with the pivot at [p]. *)
Lemma partition_spec_pivot (pop : ffly_population) (l r p : nat) :
  wf_pop pop -> (l <= p <= r)%nat -> (r < nfflies pop)%nat ->
  exists (pop' : ffly_population) (idx : nat) (tp : double * double * double),
    tuples pop !! p = Some tp /\
    partition pop (Z.of_nat l) (Z.of_nat r) (Z.of_nat p) = Some (pop', Z.of_nat idx) /\
    wf_pop pop' /\ nfflies pop' = nfflies pop /\
    (l <= idx <= r)%nat /\
    swaps l (S r) (tuples pop) (tuples pop') /\
    tuples pop' !! idx = Some tp /\
    (forall k a, (l <= k < idx)%nat -> tuples pop' !! k = Some a ->
       (a.2 <=? tp.2)%D = true) /\
    (forall k a, (idx < k <= r)%nat -> tuples pop' !! k = Some a ->
       (a.2 <=? tp.2)%D = false).
Proof.
  intros Hwf Hp Hr.
  assert (Z.of_nat (nfflies pop) <= INT_MAX) as Hmax by apply Hwf.
  pose proof (tuples_length pop Hwf) as HlenT.
  destruct (lookup_lt_is_Some_2 (tuples pop) p) as [tp Htp]; [lia |].
  unfold partition.
  rewrite aget_nat, (light_lookup_tuples pop p tp Hwf Htp). simpl.
  destruct (swap_fflies_spec pop p r Hwf) as (q & Hq & Hwfq & Hnq & HTq);
    [lia | lia |].
  rewrite Hq. simpl.
  rewrite (to_size_small (Z.of_nat l)) by lia.
  rewrite !to_uint_small by (unfold UINT_MAX, INT_MAX in *; lia).
  replace (Z.to_nat (Z.of_nat r - Z.of_nat l)) with (r - l)%nat by lia.
  destruct (for_range_inv (partition_inv (nfflies pop) l r (tuples pop) tp)
              (partition_body tp.2) (r - l) l (q, Z.of_nat l))
    as ([q1 idxZ] & Hloop & Hfin).
  { exists l. simpl. repeat (split; [first [done | lia] |]).
    rewrite HTq.
    split; [apply swaps_one; lia |].
    split; [by rewrite swap_list_lookup, decide_True by lia |].
    split; intros; lia. }
  { intros j t Hj. apply partition_body_inv; lia. }
  rewrite Hloop. simpl.
  destruct Hfin as (idx & Hidx & Hrange & Hwf1 & Hn1 & Hsw & Hpiv & Hlow & Hhigh).
  simpl in *. subst idxZ.
  replace (l + (r - l))%nat with r in * by lia.
  pose proof (tuples_length q1 Hwf1) as HlenT1.
  destruct (swap_fflies_spec q1 idx r Hwf1) as (q2 & Hq2 & Hwf2 & Hn2 & HT2);
    [lia | lia |].
  rewrite Hq2. simpl.
  exists q2, idx, tp. split; [done |]. split; [done |].
  split; [done |]. split; [lia |]. split; [lia |].
  rewrite HT2.
  split; [eapply swaps_trans; [done | apply swaps_one; lia] |].
  split.
  { rewrite swap_list_lookup by lia.
    destruct (decide (idx = r)) as [->|Hne]; [done |].
    by rewrite decide_True by done. }
  split.
  - intros k a Hk. rewrite swap_list_lookup, !decide_False by lia.
    apply Hlow. lia.
  - intros k a Hk. rewrite swap_list_lookup by lia.
    destruct (decide (k = r)) as [->|Hne]; [apply Hhigh; lia |].
    rewrite decide_False by lia. apply Hhigh. lia.
Qed.

Lemma partition_spec (pop : ffly_population) (l r p : nat) :
  wf_pop pop -> (l <= p <= r)%nat -> (r < nfflies pop)%nat ->
  exists (pop' : ffly_population) (idx : nat) (tp : double * double * double),
    partition pop (Z.of_nat l) (Z.of_nat r) (Z.of_nat p) = Some (pop', Z.of_nat idx) /\
    wf_pop pop' /\ nfflies pop' = nfflies pop /\
    (l <= idx <= r)%nat /\
    swaps l (S r) (tuples pop) (tuples pop') /\
    tuples pop' !! idx = Some tp /\
    (forall k a, (l <= k < idx)%nat -> tuples pop' !! k = Some a ->
       (a.2 <=? tp.2)%D = true) /\
    (forall k a, (idx < k <= r)%nat -> tuples pop' !! k = Some a ->
       (a.2 <=? tp.2)%D = false).
Proof.
  intros Hwf Hp Hr.
  destruct (partition_spec_pivot pop l r p Hwf Hp Hr)
    as (pop' & idx & tp & _ & Hrest).
  by exists pop', idx, tp.
Qed.

(** ** sort_flies *)

(** [sort_flies] on the range [left, right] of a population of at most
    2^30 individuals (so that [left + right] is an [int]): with fuel for
    the depth of the recursion it returns, having exchanged tuples within
    the range only and left no descent there. *)
Lemma sort_flies_spec (fuel : nat) :
  forall (pop : ffly_population) (left right : Z),
    wf_pop pop -> Z.of_nat (nfflies pop) <= SORT_MAX ->
    0 <= left -> right < Z.of_nat (nfflies pop) ->
    right - left <= Z.of_nat fuel ->
    exists pop', sort_flies fuel pop left right = Some pop' /\
      wf_pop pop' /\ nfflies pop' = nfflies pop /\
      swaps (Z.to_nat left) (Z.to_nat (right + 1)) (tuples pop) (tuples pop') /\
      sorted_range (Z.to_nat left) (Z.to_nat (right + 1)) (tuples pop').
Proof.
  induction fuel as [|fuel IH]; intros pop left right Hwf Hmax Hl Hr Hfuel.
  - simpl. rewrite decide_False by lia. exists pop.
    repeat (split; [first [done | constructor] |]).
    intros i j a b ? ? ?. lia.
  - simpl. destruct (decide (right > left)) as [Hgt|Hle].
    2:{ exists pop. repeat (split; [first [done | constructor] |]).
        intros i j a b ? ? ?. lia. }
    unfold SORT_MAX in Hmax.
    assert (exists l : nat, left = Z.of_nat l) as [l ->]
      by (exists (Z.to_nat left); lia).
    assert (exists r : nat, right = Z.of_nat r) as [r ->]
      by (exists (Z.to_nat right); lia).
    unfold int_add. rewrite decide_True by (unfold INT_MIN, INT_MAX; lia).
    simpl. rewrite Z.quot_div_nonneg by lia.
    assert (Z.of_nat l <= (Z.of_nat l + Z.of_nat r) / 2 <= Z.of_nat r) as Hp
      by (split; [apply Z.div_le_lower_bound | apply Z.div_le_upper_bound]; lia).
    rewrite to_size_small by (unfold INT_MAX; lia).
    rewrite to_int_small by (unfold INT_MIN, INT_MAX; lia).
    assert (exists p : nat, (Z.of_nat l + Z.of_nat r) / 2 = Z.of_nat p) as [p Hpeq]
      by (exists (Z.to_nat ((Z.of_nat l + Z.of_nat r) / 2)); lia).
    rewrite Hpeq in *.
    destruct (partition_spec pop l r p Hwf) as
      (q & idx & tp & Hq & Hwfq & Hnq & Hidx & Hswq & Htp & Hlow & Hhigh);
      [lia | lia |].
    rewrite Hq. simpl.
    rewrite !to_int_to_size by (unfold INT_MAX; lia).
    pose proof (tuples_length pop Hwf) as HlenT.
    pose proof (tuples_length q Hwfq) as HlenQ.
    destruct (IH q (Z.of_nat l) (Z.of_nat idx - 1) Hwfq) as
      (q1 & Hq1 & Hwf1 & Hn1 & Hsw1 & Hsorted1);
      [unfold SORT_MAX; lia | lia | lia | lia |].
    rewrite Hq1. simpl.
    pose proof (tuples_length q1 Hwf1) as HlenQ1.
    destruct (IH q1 (Z.of_nat idx + 1) (Z.of_nat r) Hwf1) as
      (q2 & Hq2 & Hwf2 & Hn2 & Hsw2 & Hsorted2);
      [unfold SORT_MAX; lia | lia | lia | lia |].
    rewrite Hq2. exists q2.
    replace (Z.to_nat (Z.of_nat l)) with l in * by lia.
    replace (Z.to_nat (Z.of_nat idx - 1 + 1)) with idx in * by lia.
    replace (Z.to_nat (Z.of_nat idx + 1)) with (S idx) in * by lia.
    replace (Z.to_nat (Z.of_nat r + 1)) with (S r) in * by lia.
    split; [done |]. split; [done |]. split; [lia |].
    split.
    { eapply swaps_trans; [exact Hswq |].
      eapply swaps_trans.
      - eapply swaps_mono; [| | | exact Hsw1]; lia.
      - eapply swaps_mono; [| | | exact Hsw2]; lia. }
    (* the elements of the left part stay at or below the pivot, those of
       the right part stay above it, and the pivot stays in place *)
    assert (forall k a, (l <= k < idx)%nat -> tuples q2 !! k = Some a ->
              (a.2 <=? tp.2)%D = true) as Hlow2.
    { intros k a Hk. rewrite (swaps_outside _ _ _ _ k Hsw2) by lia.
      revert k a Hk. by apply (swaps_inside _ _ _ _ _ Hsw1). }
    assert (forall k a, (S idx <= k < S r)%nat -> tuples q2 !! k = Some a ->
              (a.2 <=? tp.2)%D = false) as Hhigh2.
    { apply (swaps_inside _ _ _ _ _ Hsw2).
      intros k a Hk. rewrite (swaps_outside _ _ _ _ k Hsw1) by lia.
      apply Hhigh. lia. }
    assert (tuples q2 !! idx = Some tp) as Htp2.
    { rewrite (swaps_outside _ _ _ _ idx Hsw2) by lia.
      by rewrite (swaps_outside _ _ _ _ idx Hsw1) by lia. }
    intros i j a b Hi Hij Hj Ha Hb.
    destruct (decide (j < idx)%nat) as [Hjl|Hjl].
    { apply (Hsorted1 i j a b); try lia.
      - by rewrite <- (swaps_outside _ _ _ _ i Hsw2) by lia.
      - by rewrite <- (swaps_outside _ _ _ _ j Hsw2) by lia. }
    destruct (decide (idx < i)%nat) as [Hir|Hir].
    { apply (Hsorted2 i j a b); try lia; done. }
    destruct (decide (i = idx)) as [->|Hne].
    { rewrite Htp2 in Ha. injection Ha as <-.
      apply d_not_le_not_lt. apply (Hhigh2 j); [lia | done]. }
    destruct (decide (j = idx)) as [->|Hne'].
    { rewrite Htp2 in Hb. injection Hb as <-.
      apply d_le_not_lt. apply (Hlow2 i); [lia | done]. }
    apply d_partition_sep with (p := tp.2).
    + apply (Hlow2 i); [lia | done].
    + apply (Hhigh2 j); [lia | done].
Qed.

Lemma sorted_range_nondecreasing (p : ffly_population) :
  wf_pop p -> sorted_range 0 (nfflies p) (tuples p) ->
  nondecreasing (light_values p).
Proof.
  intros Hwf Hsorted i j a b Hij Ha Hb.
  pose proof (lookup_lt_Some _ _ _ Hb) as Hj.
  destruct Hwf as (Hn & Hx & Hy & Hl). rewrite Hl in Hj.
  assert (wf_pop p) as Hwf by done.
  destruct (tuples_lookup_light p i a Hwf Ha) as (ta & Hta & <-).
  destruct (tuples_lookup_light p j b Hwf Hb) as (tb & Htb & <-).
  assert ((tb.2 <? ta.2)%D = false) as Hnd
    by (apply (Hsorted i j ta tb); first [lia | done]).
  split; [done |]. intros Hna Hnb. by apply d_not_lt_le.
Qed.

Local Ltac solve_wf :=
  unfold wf_pop, INT_MAX, SORT_MAX; simpl; repeat split; first [lia | reflexivity].

(** [sort_flies] at work: the tuples of [sample_pop] in the order of
    their intensities; an intensity that is not a number is compared false
    with everything and ends before the numbers when it is the pivot; and
    [fix_positions] on the unit square. *)
Example sort_flies_sample :
  sort_flies 2 sample_pop 0 2
  = Some (Pop 3 [d_half; d_one; d_two] [d_one; d_two; d_zero]
            [d_zero; d_half; d_one]).
Proof. reflexivity. Qed.

Example sort_flies_nan : sort_flies 1 nan_pop 0 1 = Some nan_pop.
Proof. reflexivity. Qed.

Example size_t_minus_one : to_int (to_size (0 - 1)) = -1.
Proof. reflexivity. Qed.

Example fix_positions_sample :
  fix_positions sample_pop unit_min unit_max
  = Some (Pop 3 [d_one; d_half; d_one] [d_zero; d_one; d_one]
            [d_one; d_zero; d_half]).
Proof. reflexivity. Qed.

(** C3: for every population of size N >= 1 (up to the [SORT_MAX] that
    [int] indices allow), [sort_flies] over the full range 0 .. N-1
    returns with the intensities non-decreasing across the indices and with
    the (x, y, intensity) tuples a permutation of those before the call:
    the three arrays were permuted together. *)
Theorem sort_flies_sorts_tuples (pop : ffly_population) (fuel : nat) :
  wf_pop pop -> (1 <= nfflies pop)%nat ->
  Z.of_nat (nfflies pop) <= SORT_MAX ->
  (nfflies pop - 1 <= fuel)%nat ->
  exists pop',
    sort_flies fuel pop 0 (Z.of_nat (nfflies pop) - 1) = Some pop' /\
    nondecreasing (light_values pop') /\
    tuples pop' ≡ₚ tuples pop /\
    wf_pop pop' /\ nfflies pop' = nfflies pop.
Proof.
  intros Hwf Hn Hmax Hfuel.
  destruct (sort_flies_spec fuel pop 0 (Z.of_nat (nfflies pop) - 1) Hwf)
    as (pop' & Hrun & Hwf' & Hn' & Hsw & Hsorted); [done | lia | lia | lia |].
  exists pop'. split; [done |].
  replace (Z.to_nat (Z.of_nat (nfflies pop) - 1 + 1)) with (nfflies pop)
    in * by lia.
  change (Z.to_nat 0) with O in *.
  split; [apply sorted_range_nondecreasing; [done | by rewrite Hn'] |].
  split; [by eapply swaps_perm | done].
Qed.

Lemma sort_flies_sorts_tuples_witness :
  wf_pop sample_pop /\
  exists pop',
    sort_flies 2 sample_pop 0 2 = Some pop' /\
    nondecreasing (light_values pop') /\
    tuples pop' ≡ₚ tuples sample_pop /\
    wf_pop pop' /\ nfflies pop' = nfflies sample_pop.
Proof.
  split; [solve_wf |].
  apply (sort_flies_sorts_tuples sample_pop 2); first [solve_wf | simpl; lia].
Defined.

(** C10: the recursion of [sort_flies] ends for every population and
    every call with 0 <= left and right < N: with fuel for right - left
    levels the call returns; the base case right <= left returns the
    population as it is; otherwise the index that [partition] returns lies
    in [left, right], the bounds pivot - 1 and pivot + 1 reach the recursive
    calls unchanged (also when pivot - 1 falls below left), and both
    recursive ranges are strictly smaller than the range of the call. *)
Theorem sort_flies_terminates (pop : ffly_population) (left right : Z) (fuel : nat) :
  wf_pop pop -> Z.of_nat (nfflies pop) <= SORT_MAX ->
  0 <= left -> right < Z.of_nat (nfflies pop) ->
  right - left <= Z.of_nat fuel ->
  (exists pop', sort_flies fuel pop left right = Some pop') /\
  (right <= left -> sort_flies fuel pop left right = Some pop) /\
  (right > left ->
     exists pop1 pivot,
       partition pop left right (to_int (to_size (Z.quot (left + right) 2)))
         = Some (pop1, pivot) /\
       left <= pivot <= right /\
       to_int (to_size (pivot - 1)) = pivot - 1 /\
       to_int (to_size (pivot + 1)) = pivot + 1 /\
       (pivot - 1) - left < right - left /\
       right - (pivot + 1) < right - left).
Proof.
  intros Hwf Hmax Hl Hr Hfuel.
  split; [| split].
  - destruct (sort_flies_spec fuel pop left right Hwf) as (pop' & Hrun & _);
      try done. by exists pop'.
  - intros Hle. destruct fuel; simpl; by rewrite decide_False by lia.
  - intros Hgt. unfold SORT_MAX in Hmax.
    assert (exists l : nat, left = Z.of_nat l) as [l ->]
      by (exists (Z.to_nat left); lia).
    assert (exists r : nat, right = Z.of_nat r) as [r ->]
      by (exists (Z.to_nat right); lia).
    rewrite Z.quot_div_nonneg by lia.
    assert (Z.of_nat l <= (Z.of_nat l + Z.of_nat r) / 2 <= Z.of_nat r) as Hp
      by (split; [apply Z.div_le_lower_bound | apply Z.div_le_upper_bound]; lia).
    rewrite to_size_small by (unfold INT_MAX; lia).
    rewrite to_int_small by (unfold INT_MIN, INT_MAX; lia).
    assert (exists p : nat, (Z.of_nat l + Z.of_nat r) / 2 = Z.of_nat p) as [p Hpeq]
      by (exists (Z.to_nat ((Z.of_nat l + Z.of_nat r) / 2)); lia).
    rewrite Hpeq in *.
    destruct (partition_spec pop l r p Hwf) as
      (q & idx & tp & Hq & _ & _ & Hidx & _); [lia | lia |].
    exists q, (Z.of_nat idx). split; [done |]. split; [lia |].
    rewrite !to_int_to_size by (unfold INT_MAX; lia). lia.
Qed.

Lemma sort_flies_terminates_witness :
  wf_pop sample_pop /\
  (exists pop', sort_flies 2 sample_pop 0 2 = Some pop') /\
  (2 <= 0 -> sort_flies 2 sample_pop 0 2 = Some sample_pop) /\
  (2 > 0 ->
     exists pop1 pivot,
       partition sample_pop 0 2 (to_int (to_size (Z.quot (0 + 2) 2)))
         = Some (pop1, pivot) /\
       0 <= pivot <= 2 /\
       to_int (to_size (pivot - 1)) = pivot - 1 /\
       to_int (to_size (pivot + 1)) = pivot + 1 /\
       (pivot - 1) - 0 < 2 - 0 /\
       2 - (pivot + 1) < 2 - 0).
Proof.
  split; [solve_wf |].
  apply (sort_flies_terminates sample_pop 0 2 2); first [solve_wf | simpl; lia].
Defined.

(** C6: Boundary Correction is idempotent: for every population and
    rectangle, [fix_positions] applied to its own result returns that
    result unchanged. *)
Theorem fix_positions_idempotent (pop : ffly_population) (min max : point) :
  wf_pop pop ->
  exists p1, fix_positions pop min max = Some p1 /\
             fix_positions p1 min max = Some p1.
Proof.
  intros Hwf.
  destruct (fix_positions_wf pop min max Hwf) as (p1 & Hp1 & Hwf1 & _).
  exists p1. split; [done |].
  rewrite fix_positions_eq by done.
  rewrite fix_positions_eq in Hp1 by done. injection Hp1 as <-. simpl.
  f_equal. f_equal; rewrite map_map; apply map_ext; intros v;
    apply clamp_idempotent.
Qed.

Lemma fix_positions_idempotent_witness :
  wf_pop sample_pop /\
  exists p1, fix_positions sample_pop unit_min unit_max = Some p1 /\
             fix_positions p1 unit_min unit_max = Some p1.
Proof.
  split; [solve_wf |].
  apply (fix_positions_idempotent sample_pop unit_min unit_max). solve_wf.
Defined.

(** C8: Boundary Correction writes positions only: after [fix_positions]
    every intensity [light_values[i]] and the size [nfflies] are those of
    before the call. *)
Theorem fix_positions_keeps_light (pop : ffly_population) (min max : point) :
  wf_pop pop ->
  exists p1, fix_positions pop min max = Some p1 /\
             light_values p1 = light_values pop /\
             nfflies p1 = nfflies pop.
Proof.
  intros Hwf.
  destruct (fix_positions_wf pop min max Hwf) as (p1 & Hp1 & _ & Hn & Hl).
  by exists p1.
Qed.

Lemma fix_positions_keeps_light_witness :
  wf_pop sample_pop /\
  exists p1, fix_positions sample_pop unit_min unit_max = Some p1 /\
             light_values p1 = light_values sample_pop /\
             nfflies p1 = nfflies sample_pop.
Proof.
  split; [solve_wf |].
  apply (fix_positions_keeps_light sample_pop unit_min unit_max). solve_wf.
Defined.

(** ** move_fflies *)

Section Movement.

Variable exp : double -> double.

Lemma individuals_lookup (p : ffly_population) (j : nat) (q : point) (l : double) :
  individuals p !! j = Some (q, l) ->
  x_values p !! j = Some (pt_x q) /\ y_values p !! j = Some (pt_y q) /\
  light_values p !! j = Some l.
Proof.
  unfold individuals. intros [Hq Hl]%lookup_zip_Some.
  apply lookup_zip_with_Some in Hq as (x & y & -> & Hx & Hy). done.
Qed.

Lemma individuals_length (p : ffly_population) :
  wf_pop p -> length (individuals p) = nfflies p.
Proof.
  intros (_ & Hx & Hy & Hl). unfold individuals.
  rewrite length_zip, length_zip_with. lia.
Qed.

Lemma spec_inner_app (alpha gamma : double) (i : nat) (li : double)
    (l1 l2 : list (point * double)) :
  forall (j : nat) (cur : point) (g : rng),
    spec_inner exp alpha gamma i li j (l1 ++ l2) cur g
    = spec_inner exp alpha gamma i li (j + length l1) l2
        (spec_inner exp alpha gamma i li j l1 cur g).1
        (spec_inner exp alpha gamma i li j l1 cur g).2.
Proof.
  induction l1 as [|q l1 IH]; intros j cur g; simpl.
  - by rewrite Nat.add_0_r.
  - destruct (spec_pair exp alpha gamma i j li q cur g) as [cur' g'].
    rewrite IH. by replace (S j + length l1)%nat with (j + S (length l1))%nat by lia.
Qed.

Lemma spec_outer_app (alpha gamma : double) (prev : list (point * double))
    (l1 l2 : list (point * double)) :
  forall (i : nat) (g : rng),
    spec_outer exp alpha gamma i (l1 ++ l2) prev g
    = ((spec_outer exp alpha gamma i l1 prev g).1
         ++ (spec_outer exp alpha gamma (i + length l1) l2 prev
               (spec_outer exp alpha gamma i l1 prev g).2).1,
       (spec_outer exp alpha gamma (i + length l1) l2 prev
          (spec_outer exp alpha gamma i l1 prev g).2).2).
Proof.
  induction l1 as [|[p li] l1 IH]; intros i g; simpl.
  - rewrite Nat.add_0_r. by destruct (spec_outer exp alpha gamma i l2 prev g).
  - destruct (spec_inner exp alpha gamma i li 0 prev p g) as [p' g'].
    rewrite IH.
    replace (S i + length l1)%nat with (i + S (length l1))%nat by lia.
    destruct (spec_outer exp alpha gamma (S i) l1 prev g') as [ps g''].
    simpl. done.
Qed.

Lemma spec_outer_length (alpha gamma : double) (prev cur : list (point * double)) :
  forall (i : nat) (g : rng),
    length (spec_outer exp alpha gamma i cur prev g).1 = length cur.
Proof.
  induction cur as [|[p li] cur IH]; intros i g; simpl; [done |].
  destruct (spec_inner exp alpha gamma i li 0 prev p g) as [p' g'].
  specialize (IH (S i) g').
  destruct (spec_outer exp alpha gamma (S i) cur prev g') as [ps g''].
  simpl in *. by rewrite IH.
Qed.

(** One turn of the inner loop is the rule for the pair (i, j). *)
Lemma attract_body_spec (alpha gamma : double) (pop prev : ffly_population)
    (i j : nat) (li : double) (q : point * double) (cur : point) (g : rng) :
  (i < length (x_values pop))%nat -> (i < length (y_values pop))%nat ->
  light_values pop !! i = Some li ->
  individuals prev !! j = Some q ->
  attract_body exp alpha gamma (Z.of_nat i) (Z.of_nat j)
    (MoveState (set_pos pop i cur) prev g)
  = Some (MoveState
            (set_pos pop i (spec_pair exp alpha gamma i j li q cur g).1)
            prev (spec_pair exp alpha gamma i j li q cur g).2).
Proof.
  intros Hix Hiy Hli Hq. destruct q as [q lj].
  apply individuals_lookup in Hq as (Hxj & Hyj & Hlj).
  unfold attract_body, spec_pair. simpl.
  destruct (decide (Z.of_nat j = Z.of_nat i)) as [Heq|Hne].
  { rewrite decide_False by lia. done. }
  rewrite decide_True by lia.
  rewrite !aget_nat, Hli, Hlj. simpl.
  destruct (li <? lj)%D; [| done].
  rewrite Hxj, Hyj. simpl.
  rewrite !list_lookup_insert_eq by done. simpl.
  unfold set_x, set_y. simpl.
  rewrite aset_nat by (by rewrite length_insert). simpl.
  rewrite aget_nat, list_lookup_insert_eq by done. simpl.
  rewrite aset_nat by (by rewrite length_insert). simpl.
  unfold set_pos, spec_update, spec_beta, spec_distance, spec_blend. simpl.
  by rewrite !list_insert_insert_eq.
Qed.

(** The inner loop for individual [i] is the fold over the snapshot. *)
Lemma move_inner_spec (alpha gamma : double) (pop prev : ffly_population)
    (i : nat) (li : double) (cur : point) (g : rng) :
  wf_pop pop -> wf_pop prev -> nfflies prev = nfflies pop ->
  (i < nfflies pop)%nat ->
  light_values pop !! i = Some li ->
  for_range (attract_body exp alpha gamma (Z.of_nat i)) 0 (nfflies pop)
    (MoveState (set_pos pop i cur) prev g)
  = Some (MoveState
            (set_pos pop i (spec_inner exp alpha gamma i li 0 (individuals prev) cur g).1)
            prev (spec_inner exp alpha gamma i li 0 (individuals prev) cur g).2).
Proof.
  intros Hwf Hwfp Hn Hi Hli.
  pose proof (individuals_length prev Hwfp) as Hlen.
  destruct Hwf as (Hmax & Hx & Hy & Hl).
  destruct (for_range_inv
    (fun j st => st = MoveState
       (set_pos pop i (spec_inner exp alpha gamma i li 0 (take j (individuals prev)) cur g).1)
       prev (spec_inner exp alpha gamma i li 0 (take j (individuals prev)) cur g).2)
    (attract_body exp alpha gamma (Z.of_nat i)) (nfflies pop) O
    (MoveState (set_pos pop i cur) prev g)) as (st & Hst & Hfin).
  - done.
  - intros j t Hj ->.
    destruct (lookup_lt_is_Some_2 (individuals prev) j) as [q Hq]; [lia |].
    eexists. split.
    + apply attract_body_spec with (li := li) (q := q); first [lia | done].
    + rewrite (take_S_r _ _ _ Hq), spec_inner_app. simpl.
      rewrite length_take, Nat.min_l by lia.
      by destruct (spec_pair exp alpha gamma i j li q _ _).
  - change (Z.of_nat 0) with 0 in Hst. rewrite Hst, Hfin. simpl.
    by rewrite take_ge by lia.
Qed.

Lemma individuals_lookup_2 (p : ffly_population) (j : nat) (x y l : double) :
  x_values p !! j = Some x -> y_values p !! j = Some y ->
  light_values p !! j = Some l ->
  individuals p !! j = Some (Point x y, l).
Proof.
  intros Hx Hy Hl. unfold individuals. apply lookup_zip_Some. split; [| done].
  apply lookup_zip_with_Some. by exists x, y.
Qed.

(** Overwriting the first element after a finished prefix. *)
Lemma insert_after_prefix (pre l : list double) (i : nat) (old v : double) :
  length pre = i -> l !! i = Some old ->
  <[i := v]> (pre ++ drop i l) = (pre ++ [v]) ++ drop (S i) l.
Proof.
  intros Hlen Hold.
  rewrite insert_app_r_alt by lia. rewrite Hlen, Nat.sub_diag.
  rewrite (drop_S _ _ _ Hold). simpl. by rewrite <- (assoc_L (++)).
Qed.

Lemma lookup_after_prefix (pre l : list double) (i : nat) :
  length pre = i -> (pre ++ drop i l) !! i = l !! i.
Proof.
  intros Hlen. rewrite lookup_app_r by lia.
  rewrite Hlen, Nat.sub_diag, lookup_drop. f_equal. lia.
Qed.

(** The state of the outer loop before the turn for individual [i]: the
    individuals below [i] have their new positions, the others their old
    ones. *)
Lemma move_loops_spec (alpha gamma : double) (cur prev : ffly_population) (g : rng) :
  wf_pop cur -> wf_pop prev -> nfflies prev = nfflies cur ->
  move_loops exp alpha gamma cur prev g
  = Some (spec_move exp alpha gamma cur prev g).
Proof.
  intros Hwf Hwfp Hn.
  pose proof (individuals_length cur Hwf) as Hlen.
  pose proof Hwf as (Hmax & Hx & Hy & Hl).
  unfold move_loops.
  rewrite to_int_small by (unfold INT_MIN; lia). rewrite Nat2Z.id.
  set (outer := fun i => spec_outer exp alpha gamma 0
                          (take i (individuals cur)) (individuals prev) g).
  destruct (for_range_inv
    (fun i st => st = MoveState
       (Pop (nfflies cur)
          (map pt_x (outer i).1 ++ drop i (x_values cur))
          (map pt_y (outer i).1 ++ drop i (y_values cur))
          (light_values cur))
       prev (outer i).2)
    (fun i => for_range (attract_body exp alpha gamma i) 0 (nfflies cur))
    (nfflies cur) O (MoveState cur prev g)) as (st & Hst & Hfin).
  - unfold outer. simpl. by destruct cur.
  - intros i t Hi ->.
    destruct (lookup_lt_is_Some_2 (x_values cur) i) as [xi Hxi]; [lia |].
    destruct (lookup_lt_is_Some_2 (y_values cur) i) as [yi Hyi]; [lia |].
    destruct (lookup_lt_is_Some_2 (light_values cur) i) as [li Hli]; [lia |].
    assert (length (outer i).1 = i) as Hpre.
    { unfold outer. rewrite spec_outer_length, length_take. lia. }
    set (pop_i := Pop (nfflies cur)
                    (map pt_x (outer i).1 ++ drop i (x_values cur))
                    (map pt_y (outer i).1 ++ drop i (y_values cur))
                    (light_values cur)).
    assert (wf_pop pop_i) as Hwfi.
    { unfold pop_i. repeat split; simpl; [done | | | done];
        rewrite length_app, length_map, length_drop; lia. }
    assert (set_pos pop_i i (Point xi yi) = pop_i) as Hsame.
    { unfold set_pos, pop_i. simpl. f_equal; apply list_insert_id;
        rewrite lookup_after_prefix by (by rewrite length_map); done. }
    eexists. split.
    + rewrite <- Hsame.
      apply move_inner_spec with (pop := pop_i) (li := li);
        unfold pop_i; simpl; first [done | lia].
    + unfold set_pos, pop_i. simpl.
      rewrite (insert_after_prefix _ _ _ xi) by (by rewrite ?length_map).
      rewrite (insert_after_prefix _ _ _ yi) by (by rewrite ?length_map).
      assert (outer (S i)
              = ((outer i).1 ++ [(spec_inner exp alpha gamma i li 0
                                    (individuals prev) (Point xi yi) (outer i).2).1],
                 (spec_inner exp alpha gamma i li 0
                    (individuals prev) (Point xi yi) (outer i).2).2)) as ->.
      { unfold outer.
        rewrite (take_S_r _ _ _ (individuals_lookup_2 cur i xi yi li Hxi Hyi Hli)).
        rewrite spec_outer_app. simpl.
        rewrite length_take, Nat.min_l by lia.
        by destruct (spec_inner exp alpha gamma i li 0 _ _ _). }
      simpl. by rewrite !map_app.
  - change (Z.of_nat 0) with 0 in Hst. rewrite Hst, Hfin. simpl.
    unfold outer, spec_move.
    rewrite take_ge by lia. rewrite !drop_ge, !app_nil_r by lia.
    by destruct (spec_outer exp alpha gamma 0 _ _ g).
Qed.

Lemma spec_move_wf (alpha gamma : double) (cur prev : ffly_population) (g : rng) :
  wf_pop cur ->
  wf_pop (ms_pop (spec_move exp alpha gamma cur prev g)) /\
  nfflies (ms_pop (spec_move exp alpha gamma cur prev g)) = nfflies cur /\
  light_values (ms_pop (spec_move exp alpha gamma cur prev g)) = light_values cur /\
  ms_old (spec_move exp alpha gamma cur prev g) = prev.
Proof.
  intros Hwf. pose proof (individuals_length cur Hwf) as Hlen.
  pose proof (spec_outer_length alpha gamma (individuals prev)
                (individuals cur) 0 g) as Hps.
  destruct Hwf as (Hmax & Hx & Hy & Hl).
  unfold spec_move.
  destruct (spec_outer exp alpha gamma 0 _ _ g) as [ps g']. simpl in *.
  repeat split; simpl; rewrite ?length_map; first [done | lia].
Qed.

End Movement.

(** [move_fflies] is the rule followed by [fix_positions]. *)
Lemma move_fflies_eq (exp : double -> double) (alpha gamma : double)
    (min max : point) (cur prev : ffly_population) (g : rng) :
  wf_pop cur -> wf_pop prev -> nfflies prev = nfflies cur ->
  exists pop',
    fix_positions (ms_pop (spec_move exp alpha gamma cur prev g)) min max
      = Some pop' /\
    move_fflies exp cur prev alpha gamma min max g
      = Some (MoveState pop' prev (ms_rng (spec_move exp alpha gamma cur prev g))) /\
    wf_pop pop' /\ nfflies pop' = nfflies cur /\
    light_values pop' = light_values cur.
Proof.
  intros Hwf Hwfp Hn.
  pose proof (move_loops_spec exp alpha gamma cur prev g Hwf Hwfp Hn) as Hloops.
  destruct (spec_move_wf exp alpha gamma cur prev g Hwf) as (Hwfs & Hns & Hls & Hold).
  destruct (fix_positions_wf _ min max Hwfs) as (pop' & Hfix & Hwf' & Hn' & Hl').
  exists pop'. split; [done |].
  unfold move_fflies. rewrite Hloops. simpl. rewrite Hfix. simpl.
  rewrite Hold. split; [done |]. split; [done |].
  split; [by rewrite Hn', Hns | by rewrite Hl', Hls].
Qed.

(** C1: the movement operation is the update rule of the specification.
    The two loops of [move_fflies] end in the state that the rule
    describes: for each i in order and each j <> i in order, when the
    current intensity of i is below the snapshot intensity of j, the
    position of i becomes (1-beta)*current[i] + beta*previous[j] +
    alpha*(rand()-0.5) on each axis, with beta = beta0 * exp(-gamma*r^2)
    and every update reading the position that the previous j left; the
    intensities are kept and the snapshot is not written.  [move_fflies]
    itself is these loops followed by [fix_positions]. *)
Theorem move_fflies_implements_rule (exp : double -> double)
    (alpha gamma : double) (min max : point)
    (cur prev : ffly_population) (g : rng) :
  wf_pop cur -> wf_pop prev -> nfflies prev = nfflies cur ->
  exists st,
    move_loops exp alpha gamma cur prev g = Some st /\
    st = spec_move exp alpha gamma cur prev g /\
    ms_old st = prev /\
    light_values (ms_pop st) = light_values cur /\
    exists pop',
      fix_positions (ms_pop st) min max = Some pop' /\
      move_fflies exp cur prev alpha gamma min max g
      = Some (MoveState pop' prev (ms_rng st)).
Proof.
  intros Hwf Hwfp Hn.
  pose proof (move_loops_spec exp alpha gamma cur prev g Hwf Hwfp Hn) as Hloops.
  destruct (spec_move_wf exp alpha gamma cur prev g Hwf) as (Hwfs & Hns & Hls & Hold).
  exists (spec_move exp alpha gamma cur prev g).
  repeat (split; [done |]).
  destruct (move_fflies_eq exp alpha gamma min max cur prev g)
    as (pop' & Hfix & Hmove & _); try done.
  by exists pop'.
Qed.

Lemma move_fflies_implements_rule_witness :
  wf_pop sample_pop /\ wf_pop sample_old /\
  exists st,
    move_loops const_exp d_0_2 d_one sample_pop sample_old half_rng = Some st /\
    st = spec_move const_exp d_0_2 d_one sample_pop sample_old half_rng /\
    ms_old st = sample_old /\
    light_values (ms_pop st) = light_values sample_pop /\
    exists pop',
      fix_positions (ms_pop st) unit_min unit_max = Some pop' /\
      move_fflies const_exp sample_pop sample_old d_0_2 d_one unit_min unit_max half_rng
      = Some (MoveState pop' sample_old (ms_rng st)).
Proof.
  split; [solve_wf |]. split; [solve_wf |].
  apply (move_fflies_implements_rule const_exp d_0_2 d_one unit_min unit_max
           sample_pop sample_old half_rng); first [solve_wf | reflexivity].
Defined.

(** The claim C2 as it is stated fails on a rectangle whose corners are
    not in order: with min.x = 1 and max.x = 0 every x ends at 0, below
    min.x. *)
Lemma containment_fails_on_inverted_rectangle :
  wf_pop sample_pop /\
  fix_positions sample_pop inverted_min inverted_max = Some inverted_result /\
  ~ contained inverted_min inverted_max inverted_result.
Proof.
  split; [solve_wf |]. split; [by vm_compute |].
  intros [Hx _]. destruct (Hx O d_zero eq_refl) as [Hlo _].
  vm_compute in Hlo. discriminate.
Qed.

(** ** The driver *)

Section Driver.

Variable exp : double -> double.
Variable fmt_2lf : double -> string.

Lemma init_fflies_spec (n : nat) (min max : point) (w : world) :
  Z.of_nat n <= UINT_MAX ->
  exists pop w', init_fflies n min max w = Some (pop, w') /\
                 init_frame n n w (pop, w').
Proof.
  intros Hn. unfold init_fflies.
  destruct (uint_for_inv (fun k st => init_frame n k w st)
    (init_body (pt_x max - pt_x min)%D (pt_y max - pt_y min)%D min) n
    (Pop n (replicate n d_zero) (replicate n d_zero) (replicate n d_zero),
     set_allocated w (S (w_allocated w)))) as ([pop w'] & Hrun & Hfin).
  - done.
  - unfold init_frame. simpl. rewrite !length_replicate.
    repeat split; first [done | lia].
  - intros j [pop w'] Hj (Hnf & Hx & Hy & Hl & Hf & Ha & Hs & Hc & Hst & Hpos).
    simpl in *. unfold init_body, set_x, set_y, set_light. simpl.
    rewrite aset_nat by lia. simpl.
    rewrite aset_nat by lia. simpl.
    rewrite aset_nat by (rewrite Hl, length_replicate; lia). simpl.
    eexists. split; [done |].
    unfold init_frame. simpl. rewrite !length_insert, Hl, insert_replicate.
    repeat split; first [done | lia].
  - by exists pop, w'.
Qed.

Lemma init_frame_wf (n : nat) (w : world) (st : ffly_population * world) :
  Z.of_nat n <= INT_MAX -> init_frame n n w st -> wf_pop st.1.
Proof.
  intros Hn (Hnf & Hx & Hy & Hl & _). unfold wf_pop.
  rewrite Hnf, Hx, Hy, Hl, length_replicate. done.
Qed.

Lemma memcpy_all (dst src : list double) (n : nat) :
  length src = n -> length dst = n -> memcpy dst src n = Some src.
Proof.
  intros Hs Hd. unfold memcpy. rewrite decide_True by lia.
  by rewrite take_ge, drop_ge, app_nil_r by lia.
Qed.

Lemma output_points_spec (pop : ffly_population) (fname : string) (w : world) :
  Z.of_nat (nfflies pop) <= UINT_MAX ->
  length (x_values pop) = nfflies pop -> length (y_values pop) = nfflies pop ->
  output_points fmt_2lf pop fname w
  = Some (set_files w (<[fname := file_text fmt_2lf pop]> (w_files w))).
Proof.
  intros Hn Hx Hy. unfold output_points.
  set (lines := zip_with (file_line fmt_2lf) (x_values pop) (y_values pop)).
  destruct (uint_for_inv
    (fun k w' => w' = set_files w
       (<[fname := foldl (fun text line => text +:+ line) "" (take k lines)]>
          (w_files w)))
    (output_body fmt_2lf pop fname) (nfflies pop)
    (set_files w (<[fname := ""]> (w_files w)))) as (w' & Hrun & Hfin).
  - done.
  - done.
  - intros j t Hj ->.
    destruct (lookup_lt_is_Some_2 (x_values pop) j) as [xj Hxj]; [lia |].
    destruct (lookup_lt_is_Some_2 (y_values pop) j) as [yj Hyj]; [lia |].
    unfold output_body. rewrite !aget_nat, Hxj, Hyj. simpl.
    eexists. split; [done |].
    assert (lines !! j = Some (file_line fmt_2lf xj yj)) as Hline.
    { unfold lines. apply lookup_zip_with_Some. by exists xj, yj. }
    rewrite (take_S_r _ _ _ Hline), foldl_app. simpl.
    unfold fprintf, set_files. simpl. f_equal.
    by rewrite alter_insert_eq.
  - rewrite Hrun, Hfin. unfold file_text. fold lines.
    rewrite take_ge; [done |]. unfold lines. rewrite length_zip_with. lia.
Qed.

(** One turn of the loop of [ffa] on well-formed populations: the snapshot
    is the population as the turn found it, the objective function is
    applied, and [move_fflies] moves the result against the snapshot. *)
Lemma ffa_body_spec (size : nat) (f : obj_func) (alpha gamma : double)
    (min max : point) (i : Z) (st : run) :
  keeps_shape f ->
  wf_pop (r_fflies st) -> wf_pop (r_fflies_old st) ->
  nfflies (r_fflies st) = size -> nfflies (r_fflies_old st) = size ->
  exists pop',
    move_fflies exp (f (r_fflies st)) (r_fflies st) alpha gamma min max
      (w_rng (r_world st))
    = Some (MoveState pop' (r_fflies st)
              (ms_rng (spec_move exp alpha gamma (f (r_fflies st)) (r_fflies st)
                         (w_rng (r_world st))))) /\
    ffa_body exp size f alpha gamma min max i st
    = Some (Run pop' (r_fflies st)
              (set_rng (r_world st)
                 (ms_rng (spec_move exp alpha gamma (f (r_fflies st)) (r_fflies st)
                            (w_rng (r_world st)))))) /\
    wf_pop pop' /\ nfflies pop' = size.
Proof.
  intros Hf Hwf Hwfo Hn Hno.
  destruct (Hf _ Hwf) as [Hwff Hnf].
  destruct (move_fflies_eq exp alpha gamma min max (f (r_fflies st)) (r_fflies st)
              (w_rng (r_world st))) as (pop' & Hfix & Hmove & Hwf' & Hn' & _);
    [done | done | done |].
  exists pop'. split; [done |].
  unfold ffa_body.
  destruct Hwf as (Hmax & Hx & Hy & Hl). destruct Hwfo as (_ & Hxo & Hyo & Hlo).
  rewrite !memcpy_all by lia. simpl.
  replace (Pop (nfflies (r_fflies_old st)) (x_values (r_fflies st))
             (y_values (r_fflies st)) (light_values (r_fflies st)))
    with (r_fflies st) by (destruct (r_fflies st); simpl in *; congruence).
  rewrite Hmove. simpl. split; [done |]. split; [done | congruence].
Qed.

(** A whole run on a configuration whose sizes fit the counters. *)
Lemma ffa_runs (n T : nat) (min max : point) (f : obj_func) (w : world) :
  Z.of_nat n <= INT_MAX -> Z.of_nat T <= UINT_MAX -> keeps_shape f ->
  exists fflies w1 fflies_old w2 r,
    init_fflies n min max (set_seed w (w_clock w)) = Some (fflies, w1) /\
    init_fflies n min max w1 = Some (fflies_old, w2) /\
    ffa exp fmt_2lf n T min max f w = Some r /\
    wf_pop (r_fflies r) /\ nfflies (r_fflies r) = n /\
    w_allocated (r_world r) = S (S (w_allocated w)) /\
    w_files (r_world r)
    = <["end.dat" := file_text fmt_2lf (r_fflies r)]>
        (<["start.dat" := file_text fmt_2lf fflies]> (w_files w)).
Proof.
  intros Hn HT Hf.
  assert (Z.of_nat n <= UINT_MAX) as Hn' by (unfold INT_MAX, UINT_MAX in *; lia).
  destruct (init_fflies_spec n min max (set_seed w (w_clock w)) Hn')
    as (fflies & w1 & Hi1 & Hfr1).
  destruct (init_fflies_spec n min max w1 Hn') as (fflies_old & w2 & Hi2 & Hfr2).
  pose proof (init_frame_wf n _ _ Hn Hfr1) as Hwf1.
  pose proof (init_frame_wf n _ _ Hn Hfr2) as Hwf2.
  destruct Hfr1 as (Hn1 & Hx1 & Hy1 & _ & Hfiles1 & Hal1 & _).
  destruct Hfr2 as (Hn2 & _ & _ & _ & Hfiles2 & Hal2 & _).
  simpl in *.
  set (w3 := set_files w2 (<["start.dat" := file_text fmt_2lf fflies]> (w_files w2))).
  destruct (uint_for_inv
    (fun (k : nat) st =>
       wf_pop (r_fflies st) /\ wf_pop (r_fflies_old st) /\
       nfflies (r_fflies st) = n /\ nfflies (r_fflies_old st) = n /\
       w_files (r_world st) = w_files w3 /\
       w_allocated (r_world st) = w_allocated w3)
    (ffa_body exp n f d_0_2 d_one min max) T (Run fflies fflies_old w3))
    as (st & Hloop & Hwfr & Hwfo & Hnr & Hno & Hfiles & Hal).
  - done.
  - done.
  - intros j t Hj (Hwft & Hwfto & Hnt & Hnto & Hft & Hat).
    destruct (ffa_body_spec n f d_0_2 d_one min max (Z.of_nat j) t)
      as (pop' & _ & Hbody & Hwf' & Hn''); try done.
    eexists. split; [exact Hbody |]. simpl.
    repeat (split; [done |]). done.
  - exists fflies, w1, fflies_old, w2.
    eexists. split; [done |]. split; [done |].
    unfold ffa. rewrite Hi1. simpl. rewrite Hi2. simpl.
    rewrite output_points_spec by (rewrite ?Hn1; done). simpl.
    fold w3. rewrite Hloop. simpl.
    pose proof Hwfr as (Hmaxr & Hxr & Hyr & _).
    rewrite output_points_spec
      by (rewrite ?Hnr; first [done | unfold INT_MAX, UINT_MAX in *; lia]).
    simpl.
    split; [done |]. split; [done |]. split; [done |].
    unfold set_files. simpl.
    split; [rewrite Hal; unfold w3; simpl; by rewrite Hal2, Hal1 |].
    rewrite Hfiles. unfold w3. simpl. by rewrite Hfiles2, Hfiles1.
Qed.

End Driver.

Lemma keeps_shape_same_obj : keeps_shape same_obj.
Proof. intros p Hp. by split. Defined.

(** C2, amended: for every population and every rectangle with
    min.x <= max.x and min.y <= max.y, right after [fix_positions] every
    coordinate that is a number lies within the bounds, and every
    coordinate does when no coordinate of the population was NaN before
    the call; [move_fflies] ends with [fix_positions], so the same holds
    of the population that a movement call leaves, and so of the
    population after each iteration of the run. *)
Theorem fix_positions_contains (exp : double -> double)
    (pop pop_old : ffly_population) (alpha gamma : double)
    (min max : point) (g : rng) (f : obj_func) (w : world) (i : Z) :
  wf_pop pop -> wf_pop pop_old -> nfflies pop_old = nfflies pop ->
  keeps_shape f -> ordered_rect min max ->
  (exists p', fix_positions pop min max = Some p' /\
     contained_numbers min max p' /\
     ((forall v, v ∈ x_values pop ++ y_values pop -> is_nan v = false) ->
      contained min max p')) /\
  (exists st, move_fflies exp pop pop_old alpha gamma min max g = Some st /\
     contained_numbers min max (ms_pop st)) /\
  (exists r, ffa_body exp (nfflies pop) f alpha gamma min max i
               (Run pop pop_old w) = Some r /\
     contained_numbers min max (r_fflies r)).
Proof.
  intros Hwf Hwfo Hn Hf Hrect. split; [| split].
  - destruct (fix_positions_wf pop min max Hwf) as (p' & Hfix & _).
    exists p'. split; [done |].
    split; [exact (fix_positions_contained_numbers pop p' min max Hwf Hrect Hfix) |].
    intros Hnum. destruct Hrect as [Hx Hy].
    destruct (d_le_not_nan _ _ Hx) as [? ?].
    destruct (d_le_not_nan _ _ Hy) as [? ?].
    rewrite fix_positions_eq in Hfix by done. injection Hfix as <-.
    split; simpl; intros k v Hv;
      apply list_lookup_fmap_Some in Hv as (u & -> & Hu);
      apply clamp_within; try done; apply clamp_nan; try done;
      apply Hnum, elem_of_app; [left | right]; by eapply list_elem_of_lookup_2.
  - destruct (move_fflies_eq exp alpha gamma min max pop pop_old g)
      as (pop' & Hfix & Hmove & _); try done.
    eexists. split; [done |]. simpl.
    eapply fix_positions_contained_numbers; [| done | done].
    by apply spec_move_wf.
  - destruct (Hf _ Hwf) as [Hwff Hnf].
    destruct (ffa_body_spec exp (nfflies pop) f alpha gamma min max i
                (Run pop pop_old w)) as (pop' & Hmove & Hbody & _); try done.
    simpl in *.
    destruct (move_fflies_eq exp alpha gamma min max (f pop) pop (w_rng w))
      as (pop'' & Hfix & Hmove' & _); try done.
    rewrite Hmove in Hmove'. injection Hmove' as <-.
    eexists. split; [exact Hbody |]. simpl.
    eapply fix_positions_contained_numbers; [| done | done].
    by apply spec_move_wf.
Qed.

Lemma fix_positions_contains_witness :
  wf_pop sample_pop /\ wf_pop sample_old /\ ordered_rect unit_min unit_max /\
  (exists p', fix_positions sample_pop unit_min unit_max = Some p' /\
     contained_numbers unit_min unit_max p' /\
     ((forall v, v ∈ x_values sample_pop ++ y_values sample_pop -> is_nan v = false) ->
      contained unit_min unit_max p')) /\
  (exists st, move_fflies const_exp sample_pop sample_old d_0_2 d_one
                unit_min unit_max half_rng = Some st /\
     contained_numbers unit_min unit_max (ms_pop st)) /\
  (exists r, ffa_body const_exp (nfflies sample_pop) same_obj d_0_2 d_one
               unit_min unit_max 0 (Run sample_pop sample_old empty_world) = Some r /\
     contained_numbers unit_min unit_max (r_fflies r)).
Proof.
  split; [solve_wf |]. split; [solve_wf |]. split; [by vm_compute |].
  apply (fix_positions_contains const_exp sample_pop sample_old d_0_2 d_one
           unit_min unit_max half_rng same_obj empty_world 0);
    [solve_wf | solve_wf | reflexivity | exact keeps_shape_same_obj | by vm_compute].
Defined.

(** The claim C4 as it is stated fails: [ffa] has no check of its
    configuration.  With an iteration count of 0 it creates its two
    populations of three and writes three lines to start.dat. *)
Lemma ffa_accepts_invalid_configuration :
  invalid_config 3 0 unit_min unit_max /\
  exists r,
    ffa const_exp const_fmt 3 0 unit_min unit_max same_obj empty_world = Some r /\
    w_allocated (r_world r) = 2%nat /\
    w_files (r_world r) !! "start.dat"
      = Some (file_line const_fmt d_half d_half
              +:+ file_line const_fmt d_half d_half
              +:+ file_line const_fmt d_half d_half) /\
    ~ no_work_done empty_world r.
Proof.
  split; [right; by left |].
  destruct (ffa const_exp const_fmt 3 0 unit_min unit_max same_obj empty_world)
    as [r|] eqn:Hrun; vm_compute in Hrun; [| discriminate].
  injection Hrun as <-. eexists. split; [reflexivity |].
  split; [reflexivity |]. split; [by vm_compute |].
  intros [Hal _]. vm_compute in Hal. discriminate.
Qed.

(** C4, amended: [ffa] does not reject any configuration.  For every
    call, whatever the population size, the iteration count and the
    rectangle (sizes that fit the counters of the program, an objective
    function that keeps the size of the arrays), it runs to its end: it
    creates its two populations and writes start.dat and end.dat. *)
Theorem ffa_rejects_nothing (exp : double -> double) (fmt_2lf : double -> string)
    (n T : nat) (min max : point) (f : obj_func) (w : world) :
  Z.of_nat n <= INT_MAX -> Z.of_nat T <= UINT_MAX -> keeps_shape f ->
  exists r,
    ffa exp fmt_2lf n T min max f w = Some r /\
    w_allocated (r_world r) = S (S (w_allocated w)) /\
    is_Some (w_files (r_world r) !! "start.dat") /\
    w_files (r_world r) !! "end.dat" = Some (file_text fmt_2lf (r_fflies r)).
Proof.
  intros Hn HT Hf.
  destruct (ffa_runs exp fmt_2lf n T min max f w Hn HT Hf)
    as (fflies & w1 & fflies_old & w2 & r & _ & _ & Hrun & _ & _ & Hal & Hfiles).
  exists r. split; [done |]. split; [done |]. rewrite Hfiles.
  split.
  - rewrite lookup_insert_ne by done. rewrite lookup_insert_eq. by eexists.
  - by rewrite lookup_insert_eq.
Qed.

Lemma ffa_rejects_nothing_witness :
  invalid_config 0 0 unit_min unit_min /\
  exists r,
    ffa const_exp const_fmt 0 0 unit_min unit_min same_obj empty_world = Some r /\
    w_allocated (r_world r) = S (S (w_allocated empty_world)) /\
    is_Some (w_files (r_world r) !! "start.dat") /\
    w_files (r_world r) !! "end.dat" = Some (file_text const_fmt (r_fflies r)).
Proof.
  split; [by left |].
  apply (ffa_rejects_nothing const_exp const_fmt 0 0 unit_min unit_min
           same_obj empty_world);
    [by vm_compute | by vm_compute | exact keeps_shape_same_obj].
Defined.

(** C5: for every configuration with an iteration count of 0 the run
    writes the same text to start.dat and to end.dat: between the two
    writes there is no snapshot, no evaluation and no movement, the
    populations and the generator are as [init_fflies] left them. *)
Theorem ffa_zero_iterations (exp : double -> double) (fmt_2lf : double -> string)
    (n : nat) (min max : point) (f : obj_func) (w : world) :
  Z.of_nat n <= UINT_MAX ->
  exists r text,
    ffa exp fmt_2lf n 0 min max f w = Some r /\
    w_files (r_world r) !! "start.dat" = Some text /\
    w_files (r_world r) !! "end.dat" = Some text /\
    exists fflies w1 fflies_old w2,
      init_fflies n min max (set_seed w (w_clock w)) = Some (fflies, w1) /\
      init_fflies n min max w1 = Some (fflies_old, w2) /\
      r_fflies r = fflies /\ r_fflies_old r = fflies_old /\
      w_rng (r_world r) = w_rng w2.
Proof.
  intros Hn.
  destruct (init_fflies_spec n min max (set_seed w (w_clock w)) Hn)
    as (fflies & w1 & Hi1 & Hfr1).
  destruct (init_fflies_spec n min max w1 Hn) as (fflies_old & w2 & Hi2 & Hfr2).
  destruct Hfr1 as (Hn1 & Hx1 & Hy1 & _). simpl in *.
  eexists. exists (file_text fmt_2lf fflies).
  unfold ffa. rewrite Hi1. simpl. rewrite Hi2. simpl.
  rewrite output_points_spec by (rewrite ?Hn1; done). simpl.
  rewrite output_points_spec by (rewrite ?Hn1; done). simpl.
  split; [done |]. simpl.
  split; [rewrite lookup_insert_ne by done; by rewrite lookup_insert_eq |].
  split; [by rewrite lookup_insert_eq |].
  by exists fflies, w1, fflies_old, w2.
Qed.

Lemma ffa_zero_iterations_witness :
  Z.of_nat 3 <= UINT_MAX /\
  exists r text,
    ffa const_exp const_fmt 3 0 unit_min unit_max same_obj empty_world = Some r /\
    w_files (r_world r) !! "start.dat" = Some text /\
    w_files (r_world r) !! "end.dat" = Some text /\
    exists fflies w1 fflies_old w2,
      init_fflies 3 unit_min unit_max (set_seed empty_world (w_clock empty_world))
        = Some (fflies, w1) /\
      init_fflies 3 unit_min unit_max w1 = Some (fflies_old, w2) /\
      r_fflies r = fflies /\ r_fflies_old r = fflies_old /\
      w_rng (r_world r) = w_rng w2.
Proof.
  split; [by vm_compute |].
  apply (ffa_zero_iterations const_exp const_fmt 3 unit_min unit_max
           same_obj empty_world). by vm_compute.
Defined.

(** ** The first iteration *)

Section FirstIteration.

Variable exp : double -> double.

(** Against a snapshot without a brighter individual nothing moves. *)
Lemma spec_inner_no_move (alpha gamma : double) (i : nat) (li : double)
    (prev : list (point * double)) :
  (forall q, q ∈ prev -> (li <? q.2)%D = false) ->
  forall (j : nat) (cur : point) (g : rng),
    spec_inner exp alpha gamma i li j prev cur g = (cur, g).
Proof.
  induction prev as [|q prev IH]; intros Hdim j cur g; simpl; [done |].
  unfold spec_pair. rewrite (Hdim q) by apply list_elem_of_here.
  destruct (decide (j <> i)); apply IH; intros q' Hq';
    apply Hdim; by apply list_elem_of_further.
Qed.

Lemma spec_outer_lookup (alpha gamma : double) (prev cur : list (point * double)) :
  forall (i : nat) (g : rng) (k : nat) (p : point) (li : double),
    cur !! k = Some (p, li) ->
    exists g', (spec_outer exp alpha gamma i cur prev g).1 !! k
               = Some (spec_inner exp alpha gamma (i + k) li 0 prev p g').1.
Proof.
  induction cur as [|[p0 l0] cur IH]; intros i g k p li Hk; [done |].
  simpl. destruct (spec_inner exp alpha gamma i l0 0 prev p0 g) as [p' g'] eqn:Hin.
  specialize (IH (S i) g').
  destruct (spec_outer exp alpha gamma (S i) cur prev g') as [ps g''].
  destruct k as [|k]; simpl in *.
  - injection Hk as -> ->. exists g. by rewrite Nat.add_0_r, Hin.
  - destruct (IH k p li Hk) as (g1 & Hg1). exists g1.
    by replace (i + S k)%nat with (S i + k)%nat by lia.
Qed.

(** An individual that is not below any intensity of the snapshot keeps
    its position through the two loops. *)
Lemma spec_move_keeps_dim (alpha gamma : double) (cur prev : ffly_population)
    (g : rng) (i : nat) (li : double) :
  wf_pop cur ->
  light_values cur !! i = Some li ->
  (forall l, l ∈ light_values prev -> (li <? l)%D = false) ->
  x_values (ms_pop (spec_move exp alpha gamma cur prev g)) !! i = x_values cur !! i /\
  y_values (ms_pop (spec_move exp alpha gamma cur prev g)) !! i = y_values cur !! i.
Proof.
  intros Hwf Hli Hdim.
  pose proof (lookup_lt_Some _ _ _ Hli) as Hi.
  destruct Hwf as (Hmax & Hx & Hy & Hl).
  destruct (lookup_lt_is_Some_2 (x_values cur) i) as [xi Hxi]; [lia |].
  destruct (lookup_lt_is_Some_2 (y_values cur) i) as [yi Hyi]; [lia |].
  destruct (spec_outer_lookup alpha gamma (individuals prev) (individuals cur)
              0 g i (Point xi yi) li) as (g' & Hps).
  { by apply individuals_lookup_2. }
  rewrite spec_inner_no_move in Hps.
  2:{ intros [q l] Hq. apply list_elem_of_lookup_1 in Hq as [j Hj].
      apply individuals_lookup in Hj as (_ & _ & Hlj).
      apply Hdim. by eapply list_elem_of_lookup_2. }
  unfold spec_move.
  destruct (spec_outer exp alpha gamma 0 _ _ g) as [ps g'']. simpl in *.
  by rewrite !list_lookup_fmap, Hps, Hxi, Hyi.
Qed.

(** C9: on the first iteration of the driver the intensities of the
    snapshot are all 0.0 (it copies the population that [init_fflies]
    made, before the first evaluation); so in the first movement call an
    individual is attracted only if its fresh intensity is below zero: one
    whose intensity is not keeps its position through the two loops and
    ends the call at its boundary-corrected position. *)
Theorem first_move_needs_negative_intensity (n : nat) (min max : point)
    (f : obj_func) (w0 w3 : world) :
  Z.of_nat n <= INT_MAX -> keeps_shape f ->
  exists fflies w1 fflies_old w2,
    init_fflies n min max w0 = Some (fflies, w1) /\
    init_fflies n min max w1 = Some (fflies_old, w2) /\
    exists r st,
      ffa_body exp n f d_0_2 d_one min max 0 (Run fflies fflies_old w3) = Some r /\
      light_values (r_fflies_old r) = replicate n d_zero /\
      move_loops exp d_0_2 d_one (f fflies) (r_fflies_old r) (w_rng w3) = Some st /\
      forall (i : nat) (li : double),
        light_values (f fflies) !! i = Some li -> (li <? d_zero)%D = false ->
        x_values (ms_pop st) !! i = x_values (f fflies) !! i /\
        y_values (ms_pop st) !! i = y_values (f fflies) !! i /\
        x_values (r_fflies r) !! i
          = clamp (pt_x min) (pt_x max) <$> x_values (f fflies) !! i /\
        y_values (r_fflies r) !! i
          = clamp (pt_y min) (pt_y max) <$> y_values (f fflies) !! i.
Proof.
  intros Hn Hf.
  assert (Z.of_nat n <= UINT_MAX) as Hn' by (unfold INT_MAX, UINT_MAX in *; lia).
  destruct (init_fflies_spec n min max w0 Hn') as (fflies & w1 & Hi1 & Hfr1).
  destruct (init_fflies_spec n min max w1 Hn') as (fflies_old & w2 & Hi2 & Hfr2).
  pose proof (init_frame_wf n _ _ Hn Hfr1) as Hwf1.
  pose proof (init_frame_wf n _ _ Hn Hfr2) as Hwf2.
  destruct Hfr1 as (Hn1 & _ & _ & Hl1 & _).
  destruct Hfr2 as (Hn2 & _). simpl in *.
  exists fflies, w1, fflies_old, w2. split; [done |]. split; [done |].
  destruct (Hf _ Hwf1) as [Hwff Hnf].
  destruct (ffa_body_spec exp n f d_0_2 d_one min max 0 (Run fflies fflies_old w3))
    as (pop' & Hmove & Hbody & Hwf' & Hn''); try done. simpl in *.
  eexists. exists (spec_move exp d_0_2 d_one (f fflies) fflies (w_rng w3)).
  split; [exact Hbody |]. simpl. split; [done |].
  split; [apply move_loops_spec; first [done | congruence] |].
  intros i li Hli Hneg.
  destruct (spec_move_keeps_dim d_0_2 d_one (f fflies) fflies (w_rng w3) i li)
    as [Hx Hy]; try done.
  { intros l Hl. rewrite Hl1 in Hl. by apply elem_of_replicate in Hl as [-> _]. }
  split; [done |]. split; [done |].
  destruct (move_fflies_eq exp d_0_2 d_one min max (f fflies) fflies (w_rng w3))
    as (pop'' & Hfix & Hmove' & _); [done | done | congruence |].
  rewrite Hmove in Hmove'. injection Hmove' as <-.
  rewrite fix_positions_eq in Hfix by (by apply spec_move_wf).
  injection Hfix as <-. simpl.
  by rewrite !list_lookup_fmap, Hx, Hy.
Qed.

End FirstIteration.

Lemma first_move_needs_negative_intensity_witness :
  keeps_shape same_obj /\
  exists fflies w1 fflies_old w2,
    init_fflies 3 unit_min unit_max empty_world = Some (fflies, w1) /\
    init_fflies 3 unit_min unit_max w1 = Some (fflies_old, w2) /\
    exists r st,
      ffa_body const_exp 3 same_obj d_0_2 d_one unit_min unit_max 0
        (Run fflies fflies_old empty_world) = Some r /\
      light_values (r_fflies_old r) = replicate 3 d_zero /\
      move_loops const_exp d_0_2 d_one (same_obj fflies) (r_fflies_old r) (w_rng empty_world)
        = Some st /\
      forall (i : nat) (li : double),
        light_values (same_obj fflies) !! i = Some li -> (li <? d_zero)%D = false ->
        x_values (ms_pop st) !! i = x_values (same_obj fflies) !! i /\
        y_values (ms_pop st) !! i = y_values (same_obj fflies) !! i /\
        x_values (r_fflies r) !! i
          = clamp (pt_x unit_min) (pt_x unit_max) <$> x_values (same_obj fflies) !! i /\
        y_values (r_fflies r) !! i
          = clamp (pt_y unit_min) (pt_y unit_max) <$> y_values (same_obj fflies) !! i.
Proof.
  split; [exact keeps_shape_same_obj |].
  apply (first_move_needs_negative_intensity const_exp 3 unit_min unit_max
           same_obj empty_world empty_world);
    [by vm_compute | exact keeps_shape_same_obj].
Defined.

(** ** Two runs on the same recorded sequence *)

Section Determinism.

Variable exp : double -> double.
Variable fmt_2lf : double -> string.

Lemma option_bind_rel {A1 A2 B1 B2 : Type} (R : A1 -> A2 -> Prop)
    (Q : B1 -> B2 -> Prop) (m1 : option A1) (m2 : option A2)
    (f1 : A1 -> option B1) (f2 : A2 -> option B2) :
  option_Forall2 R m1 m2 ->
  (forall a1 a2, R a1 a2 -> option_Forall2 Q (f1 a1) (f2 a2)) ->
  option_Forall2 Q (m1 ≫= f1) (m2 ≫= f2).
Proof.
  intros [a1 a2 Ha|] Hf; simpl; [by apply Hf | constructor].
Qed.

Lemma for_range_rel {S1 S2 : Type} (R : S1 -> S2 -> Prop)
    (b1 : Z -> S1 -> option S1) (b2 : Z -> S2 -> option S2) :
  (forall i s1 s2, R s1 s2 -> option_Forall2 R (b1 i s1) (b2 i s2)) ->
  forall (n : nat) (i : Z) (s1 : S1) (s2 : S2),
    R s1 s2 -> option_Forall2 R (for_range b1 i n s1) (for_range b2 i n s2).
Proof.
  intros Hb. induction n as [|n IH]; intros i s1 s2 Hs; simpl.
  - by constructor.
  - eapply option_bind_rel; [by apply Hb |]. intros. by apply IH.
Qed.

Lemma uint_for_rel {S1 S2 : Type} (R : S1 -> S2 -> Prop)
    (b1 : Z -> S1 -> option S1) (b2 : Z -> S2 -> option S2)
    (n : nat) (s1 : S1) (s2 : S2) :
  (forall i s1 s2, R s1 s2 -> option_Forall2 R (b1 i s1) (b2 i s2)) ->
  R s1 s2 -> option_Forall2 R (uint_for n b1 s1) (uint_for n b2 s2).
Proof.
  intros Hb Hs. unfold uint_for.
  destruct (decide _); [by apply for_range_rel | constructor].
Qed.

Lemma rng_eqv_next (g1 g2 : rng) :
  rng_eqv g1 g2 ->
  rng_eqv (Rng (rng_stream g1) (S (rng_pos g1))) (Rng (rng_stream g2) (S (rng_pos g2))).
Proof. intros [Hpos Hstr]. split; simpl; [by rewrite Hpos | done]. Qed.

Local Ltac same_reads :=
  repeat match goal with
  | |- context [aget ?a ?i] =>
      destruct (aget a i); simpl; [| by constructor]
  | |- context [aset ?a ?i ?v] =>
      destruct (aset a i v); simpl; [| by constructor]
  | |- context [memcpy ?a ?b ?n] =>
      destruct (memcpy a b n); simpl; [| by constructor]
  end.

Lemma attract_body_rel (alpha gamma : double) (i j : Z) (s1 s2 : move_state) :
  same_moves s1 s2 ->
  option_Forall2 same_moves (attract_body exp alpha gamma i j s1)
                            (attract_body exp alpha gamma i j s2).
Proof.
  destruct s1 as [p1 o1 g1], s2 as [p2 o2 g2].
  intros (Hp & Ho & Hg). simpl in *. subst p2 o2.
  pose proof (rng_eqv_next _ _ (rng_eqv_next _ _ Hg)) as Hg2.
  destruct Hg as [Hpos Hstr]. simpl in Hg2.
  unfold attract_body. simpl.
  destruct (decide (j = i)); [by constructor |].
  same_reads.
  match goal with |- context [if ?b then _ else _] => destruct b end;
    [| by constructor].
  same_reads. unfold set_x, set_y. simpl.
  rewrite !Hstr, Hpos. same_reads.
  by constructor.
Qed.

Lemma move_fflies_rel (alpha gamma : double) (min max : point)
    (pop pop_old : ffly_population) (g1 g2 : rng) :
  rng_eqv g1 g2 ->
  option_Forall2 same_moves
    (move_fflies exp pop pop_old alpha gamma min max g1)
    (move_fflies exp pop pop_old alpha gamma min max g2).
Proof.
  intros Hg. unfold move_fflies.
  eapply option_bind_rel with (R := same_moves).
  - unfold move_loops. apply for_range_rel; [| done].
    intros i s1 s2 Hs. apply for_range_rel; [| done].
    intros j t1 t2 Ht. by apply attract_body_rel.
  - intros [p1 o1 h1] [p2 o2 h2] (Hp & Ho & Hh). simpl in *. subst p2 o2.
    destruct (fix_positions p1 min max); simpl; by constructor.
Qed.

Lemma init_fflies_rel (names : list string) (n : nat) (min max : point)
    (w1 w2 : world) :
  same_output names w1 w2 ->
  option_Forall2 (same_init names) (init_fflies n min max w1)
                                   (init_fflies n min max w2).
Proof.
  intros Hw. unfold init_fflies. apply uint_for_rel; [| done].
  intros i [p1 u1] [p2 u2] [Hp [Hg Hfiles]]. simpl in *. subst p2.
  pose proof (rng_eqv_next _ _ (rng_eqv_next _ _ Hg)) as Hg2.
  destruct Hg as [Hpos Hstr]. simpl in Hg2.
  unfold init_body, set_x, set_y, set_light. simpl.
  rewrite !Hstr, Hpos. same_reads.
  constructor. by split.
Qed.

Lemma output_points_rel (names : list string) (pop : ffly_population)
    (fname : string) (w1 w2 : world) :
  same_output names w1 w2 ->
  option_Forall2 (same_output (fname :: names))
    (output_points fmt_2lf pop fname w1) (output_points fmt_2lf pop fname w2).
Proof.
  intros [Hg Hfiles]. unfold output_points. apply uint_for_rel.
  - intros i u1 u2 [Hu Hf]. unfold output_body. same_reads.
    constructor. split; [done |]. simpl. intros name Hname.
    destruct (decide (fname = name)) as [->|Hne].
    + by rewrite !lookup_alter_eq, (Hf name Hname).
    + rewrite !lookup_alter_ne by done. by apply Hf.
  - split; [done |]. simpl. intros name Hname.
    destruct (decide (fname = name)) as [->|Hne].
    + by rewrite !lookup_insert_eq.
    + rewrite !lookup_insert_ne by done. apply Hfiles.
      apply elem_of_cons in Hname as [Heq|Hin]; [congruence | done].
Qed.

Lemma ffa_body_rel (names : list string) (size : nat) (f : obj_func)
    (alpha gamma : double) (min max : point) (i : Z) (r1 r2 : run) :
  same_run names r1 r2 ->
  option_Forall2 (same_run names)
    (ffa_body exp size f alpha gamma min max i r1)
    (ffa_body exp size f alpha gamma min max i r2).
Proof.
  destruct r1 as [p1 o1 u1], r2 as [p2 o2 u2].
  intros (Hp & Ho & Hg & Hfiles). simpl in *. subst p2 o2.
  unfold ffa_body. simpl. same_reads.
  eapply option_bind_rel; [by apply move_fflies_rel |].
  intros s1 s2 (Hsp & Hso & Hsg). constructor.
  split; [done |]. split; [done |]. by split.
Qed.

(** Two runs of [ffa] on the same configuration. *)
Lemma ffa_rel (n T : nat) (min max : point) (f : obj_func) (w1 w2 : world) :
  rng_eqv (w_rng w1) (w_rng w2) ->
  option_Forall2 (same_run ["end.dat"; "start.dat"])
    (ffa exp fmt_2lf n T min max f w1) (ffa exp fmt_2lf n T min max f w2).
Proof.
  intros Hg. unfold ffa.
  eapply option_bind_rel with (R := same_init []).
  { apply init_fflies_rel. split; [done |]. intros name Hname. by inversion Hname. }
  intros [p1 u1] [p2 u2] [Hp Hu]. simpl in *. subst p2.
  eapply option_bind_rel with (R := same_init []).
  { by apply init_fflies_rel. }
  intros [o1 v1] [o2 v2] [Ho Hv]. simpl in *. subst o2.
  eapply option_bind_rel with (R := same_output ["start.dat"]).
  { by apply output_points_rel. }
  intros x1 x2 Hx.
  eapply option_bind_rel with (R := same_run ["start.dat"]).
  { apply uint_for_rel; [| done]. intros i r1 r2. apply ffa_body_rel. }
  intros [q1 q1' y1] [q2 q2' y2] (Hq & Hq' & Hy). simpl in *. subst q2 q2'.
  eapply option_bind_rel with (R := same_output ["end.dat"; "start.dat"]).
  { by apply output_points_rel. }
  intros z1 z2 Hz. by constructor.
Qed.

End Determinism.

(** C7: the run is deterministic given its random sequence.  Two
    executions of [ffa] with the same configuration (population size,
    iteration count, rectangle, objective function) whose generators
    replay the same recorded sequence either both have no result or both
    end with the same contents in start.dat and in end.dat, whatever the
    clock, the seed and the files that each of them found; and when the
    sizes fit the counters and the objective function keeps the size of
    the arrays, both do end. *)
Theorem ffa_deterministic (exp : double -> double) (fmt_2lf : double -> string)
    (n T : nat) (min max : point) (f : obj_func) (w1 w2 : world) :
  rng_eqv (w_rng w1) (w_rng w2) ->
  option_Forall2
    (fun r1 r2 =>
       w_files (r_world r1) !! "start.dat" = w_files (r_world r2) !! "start.dat" /\
       w_files (r_world r1) !! "end.dat" = w_files (r_world r2) !! "end.dat" /\
       r_fflies r1 = r_fflies r2)
    (ffa exp fmt_2lf n T min max f w1) (ffa exp fmt_2lf n T min max f w2) /\
  (Z.of_nat n <= INT_MAX -> Z.of_nat T <= UINT_MAX -> keeps_shape f ->
   exists r1 r2 start_text end_text,
     ffa exp fmt_2lf n T min max f w1 = Some r1 /\
     ffa exp fmt_2lf n T min max f w2 = Some r2 /\
     w_files (r_world r1) !! "start.dat" = Some start_text /\
     w_files (r_world r2) !! "start.dat" = Some start_text /\
     w_files (r_world r1) !! "end.dat" = Some end_text /\
     w_files (r_world r2) !! "end.dat" = Some end_text).
Proof.
  intros Hg.
  pose proof (ffa_rel exp fmt_2lf n T min max f w1 w2 Hg) as Hrel.
  split.
  - destruct Hrel as [r1 r2 (Hp & _ & _ & Hfiles)|]; constructor.
    split; [apply Hfiles; set_solver |]. split; [apply Hfiles; set_solver | done].
  - intros Hn HT Hf.
    destruct (ffa_runs exp fmt_2lf n T min max f w1 Hn HT Hf)
      as (fflies & u1 & fflies_old & u2 & r1 & _ & _ & Hrun1 & _ & _ & _ & Hfiles1).
    destruct (ffa_runs exp fmt_2lf n T min max f w2 Hn HT Hf)
      as (fflies' & v1 & fflies_old' & v2 & r2 & _ & _ & Hrun2 & _).
    rewrite Hrun1, Hrun2 in Hrel.
    inversion Hrel as [? ? (Hp & _ & _ & Hfiles)|]; subst.
    exists r1, r2, (file_text fmt_2lf fflies), (file_text fmt_2lf (r_fflies r1)).
    split; [done |]. split; [done |].
    assert (w_files (r_world r1) !! "start.dat" = Some (file_text fmt_2lf fflies)) as Hs.
    { rewrite Hfiles1. rewrite lookup_insert_ne by done. by rewrite lookup_insert_eq. }
    assert (w_files (r_world r1) !! "end.dat"
            = Some (file_text fmt_2lf (r_fflies r1))) as He.
    { rewrite Hfiles1. by rewrite lookup_insert_eq. }
    split; [done |].
    split; [rewrite <- (Hfiles "start.dat") by set_solver; done |].
    split; [done |].
    rewrite <- (Hfiles "end.dat") by set_solver. done.
Qed.

Lemma rng_eqv_recorded : rng_eqv (w_rng empty_world) (w_rng other_world).
Proof.
  split; [reflexivity |]. intros k.
  change (d_half = default d_half (replicate 64 d_half !! k)).
  destruct (replicate 64 d_half !! k) as [v|] eqn:Hk; simpl; [| reflexivity].
  apply lookup_replicate in Hk as [-> _]. reflexivity.
Defined.

Lemma ffa_deterministic_witness :
  rng_eqv (w_rng empty_world) (w_rng other_world) /\
  option_Forall2
    (fun r1 r2 =>
       w_files (r_world r1) !! "start.dat" = w_files (r_world r2) !! "start.dat" /\
       w_files (r_world r1) !! "end.dat" = w_files (r_world r2) !! "end.dat" /\
       r_fflies r1 = r_fflies r2)
    (ffa const_exp const_fmt 3 2 unit_min unit_max same_obj empty_world)
    (ffa const_exp const_fmt 3 2 unit_min unit_max same_obj other_world) /\
  exists r1 r2 start_text end_text,
    ffa const_exp const_fmt 3 2 unit_min unit_max same_obj empty_world = Some r1 /\
    ffa const_exp const_fmt 3 2 unit_min unit_max same_obj other_world = Some r2 /\
    w_files (r_world r1) !! "start.dat" = Some start_text /\
    w_files (r_world r2) !! "start.dat" = Some start_text /\
    w_files (r_world r1) !! "end.dat" = Some end_text /\
    w_files (r_world r2) !! "end.dat" = Some end_text.
Proof.
  split; [exact rng_eqv_recorded |].
  destruct (ffa_deterministic const_exp const_fmt 3 2 unit_min unit_max same_obj
              empty_world other_world rng_eqv_recorded) as [Hsame Hboth].
  split; [exact Hsame |].
  apply Hboth; [by vm_compute | by vm_compute | exact keeps_shape_same_obj].
Defined.

(** * Further properties of the code *)

(** ** fix_positions on particular rectangles and coordinates *)

Lemma clamp_within_id (lo hi v : double) : within lo hi v -> clamp lo hi v = v.
Proof.
  intros [Hlo Hhi]. unfold clamp, d_gt.
  pose proof (d_le_not_lt _ _ Hlo) as H1. pose proof (d_le_not_lt _ _ Hhi) as H2.
  unfold d_lt in *. by rewrite H1, H2.
Qed.

Lemma clamp_inverted (lo hi v : double) :
  (hi <? lo)%D = true -> is_nan v = false -> clamp lo hi v = hi.
Proof.
  intros Hinv Hv. unfold clamp, d_gt.
  destruct (v <? lo)%D eqn:E1.
  - unfold d_lt in *. by rewrite Hinv.
  - pose proof (d_lt_inverted lo hi v Hinv Hv E1) as H2.
    unfold d_lt in *. by rewrite H2.
Qed.

Lemma clamp_nan_id (lo hi v : double) : is_nan v = true -> clamp lo hi v = v.
Proof.
  intros Hv. unfold clamp, d_gt.
  destruct (d_nan_not_lt v lo Hv) as [H1 _].
  destruct (d_nan_not_lt v hi Hv) as [_ H2].
  unfold d_lt in *. by rewrite H1, H2.
Qed.

(** X1: [fix_positions] leaves a population that lies within the
    rectangle exactly as it is. *)
Theorem fix_positions_inside_unchanged (pop : ffly_population) (min max : point) :
  wf_pop pop -> contained min max pop ->
  fix_positions pop min max = Some pop.
Proof.
  intros Hwf [Hx Hy]. rewrite fix_positions_eq by done.
  destruct pop as [n xs ys ls]. simpl in *. f_equal. f_equal.
  - apply list_eq. intros i. rewrite list_lookup_fmap.
    destruct (xs !! i) as [v|] eqn:Hv; simpl; [| done].
    f_equal. apply clamp_within_id. by apply (Hx i).
  - apply list_eq. intros i. rewrite list_lookup_fmap.
    destruct (ys !! i) as [v|] eqn:Hv; simpl; [| done].
    f_equal. apply clamp_within_id. by apply (Hy i).
Qed.

Lemma fix_positions_inside_unchanged_witness :
  wf_pop sample_old /\ contained unit_min unit_max sample_old /\
  fix_positions sample_old unit_min unit_max = Some sample_old.
Proof.
  assert (contained unit_min unit_max sample_old) as Hc.
  { split; intros [|[|[|i]]] v Hv; try discriminate;
      injection Hv as <-; by vm_compute. }
  split; [solve_wf |]. split; [exact Hc |].
  apply (fix_positions_inside_unchanged sample_old unit_min unit_max);
    [solve_wf | exact Hc].
Defined.

(** X2: in a rectangle whose x bounds are in the wrong order
    (max.x < min.x), [fix_positions] sends every x coordinate that is a
    number to max.x, wherever it was; the same on the y axis. *)
Theorem fix_positions_inverted_axis (pop : ffly_population) (min max : point) :
  wf_pop pop ->
  exists p', fix_positions pop min max = Some p' /\
    ((pt_x max <? pt_x min)%D = true ->
     forall (i : nat) (v : double), x_values pop !! i = Some v ->
       is_nan v = false -> x_values p' !! i = Some (pt_x max)) /\
    ((pt_y max <? pt_y min)%D = true ->
     forall (i : nat) (v : double), y_values pop !! i = Some v ->
       is_nan v = false -> y_values p' !! i = Some (pt_y max)).
Proof.
  intros Hwf. eexists. split; [by apply fix_positions_eq |].
  split; intros Hinv i v Hv Hnum; simpl;
    rewrite list_lookup_fmap, Hv; simpl; f_equal; by apply clamp_inverted.
Qed.

Lemma fix_positions_inverted_axis_witness :
  wf_pop sample_pop /\
  exists p', fix_positions sample_pop inverted_min inverted_max = Some p' /\
    ((pt_x inverted_max <? pt_x inverted_min)%D = true ->
     forall (i : nat) (v : double), x_values sample_pop !! i = Some v ->
       is_nan v = false -> x_values p' !! i = Some (pt_x inverted_max)) /\
    ((pt_y inverted_max <? pt_y inverted_min)%D = true ->
     forall (i : nat) (v : double), y_values sample_pop !! i = Some v ->
       is_nan v = false -> y_values p' !! i = Some (pt_y inverted_max)).
Proof.
  split; [solve_wf |].
  apply (fix_positions_inverted_axis sample_pop inverted_min inverted_max).
  solve_wf.
Defined.

(** X3: a coordinate that is not a number passes through
    [fix_positions] unchanged, whatever the rectangle: both tests of the
    source are false on NaN. *)
Theorem fix_positions_keeps_nan (pop : ffly_population) (min max : point) :
  wf_pop pop ->
  exists p', fix_positions pop min max = Some p' /\
    (forall (i : nat) (v : double), x_values pop !! i = Some v ->
       is_nan v = true -> x_values p' !! i = Some v) /\
    (forall (i : nat) (v : double), y_values pop !! i = Some v ->
       is_nan v = true -> y_values p' !! i = Some v).
Proof.
  intros Hwf. eexists. split; [by apply fix_positions_eq |].
  split; intros i v Hv Hnan; simpl;
    rewrite list_lookup_fmap, Hv; simpl; f_equal; by apply clamp_nan_id.
Qed.

Lemma fix_positions_keeps_nan_witness :
  wf_pop nan_xy_pop /\
  exists p', fix_positions nan_xy_pop unit_min unit_max = Some p' /\
    (forall (i : nat) (v : double), x_values nan_xy_pop !! i = Some v ->
       is_nan v = true -> x_values p' !! i = Some v) /\
    (forall (i : nat) (v : double), y_values nan_xy_pop !! i = Some v ->
       is_nan v = true -> y_values p' !! i = Some v).
Proof.
  split; [solve_wf |].
  apply (fix_positions_keeps_nan nan_xy_pop unit_min unit_max). solve_wf.
Defined.

(** ** swap, partition and sort_flies at the edges *)

Lemma aget_outside (a : list double) (i : Z) :
  i < 0 \/ Z.of_nat (length a) <= i -> aget a i = None.
Proof.
  intros Hi. unfold aget. destruct (decide (0 <= i)); [| done].
  apply lookup_ge_None_2. lia.
Qed.

Lemma swap_list_twice {A : Type} (T : list A) (i j : nat) :
  (i < length T)%nat -> (j < length T)%nat ->
  swap_list (swap_list T i j) i j = T.
Proof.
  intros Hi Hj. apply list_eq. intros k.
  rewrite swap_list_lookup by (by rewrite swap_list_length).
  rewrite !swap_list_lookup by done.
  repeat case_decide; subst; done.
Qed.

Lemma swap_fflies_eq (pop : ffly_population) (i j : nat) :
  wf_pop pop -> (i < nfflies pop)%nat -> (j < nfflies pop)%nat ->
  swap_fflies pop (Z.of_nat i) (Z.of_nat j)
  = Some (Pop (nfflies pop) (swap_list (x_values pop) i j)
            (swap_list (y_values pop) i j) (swap_list (light_values pop) i j)).
Proof.
  intros (Hn & Hx & Hy & Hl) Hi Hj. unfold swap_fflies.
  by rewrite !swap_spec by lia.
Qed.

(** X4: exchanging two individuals twice gives the population back: the
    three exchanges of the source undo themselves. *)
Theorem swap_fflies_twice (pop : ffly_population) (i j : nat) :
  wf_pop pop -> (i < nfflies pop)%nat -> (j < nfflies pop)%nat ->
  exists pop', swap_fflies pop (Z.of_nat i) (Z.of_nat j) = Some pop' /\
               swap_fflies pop' (Z.of_nat i) (Z.of_nat j) = Some pop.
Proof.
  intros Hwf Hi Hj. pose proof Hwf as (Hn & Hx & Hy & Hl).
  eexists. split; [by apply swap_fflies_eq |].
  rewrite swap_fflies_eq; simpl;
    [| repeat split; simpl; rewrite ?swap_list_length; done | done | done].
  rewrite !swap_list_twice by lia. by destruct pop.
Qed.

Lemma swap_fflies_twice_witness :
  wf_pop sample_pop /\
  exists pop', swap_fflies sample_pop (Z.of_nat 0) (Z.of_nat 2) = Some pop' /\
               swap_fflies pop' (Z.of_nat 0) (Z.of_nat 2) = Some sample_pop.
Proof.
  split; [solve_wf |].
  apply (swap_fflies_twice sample_pop 0 2); first [solve_wf | simpl; lia].
Defined.

(** X5: the three exchanges move the (x, y, intensity) tuples as units:
    afterwards position i holds the tuple that was at j, position j the one
    that was at i, and every other position its own; and an index outside
    the arrays gives no result at all. *)
Theorem swap_fflies_exchanges (pop : ffly_population) (i j : nat) :
  wf_pop pop ->
  ((i < nfflies pop)%nat -> (j < nfflies pop)%nat ->
   exists pop', swap_fflies pop (Z.of_nat i) (Z.of_nat j) = Some pop' /\
     tuples pop' !! i = tuples pop !! j /\
     tuples pop' !! j = tuples pop !! i /\
     forall k, k <> i -> k <> j -> tuples pop' !! k = tuples pop !! k) /\
  ((nfflies pop <= i)%nat \/ (nfflies pop <= j)%nat ->
   swap_fflies pop (Z.of_nat i) (Z.of_nat j) = None).
Proof.
  intros Hwf. split.
  - intros Hi Hj. pose proof (tuples_length pop Hwf) as Hlen.
    destruct (swap_fflies_spec pop i j Hwf Hi Hj) as (pop' & Hrun & _ & _ & HT).
    exists pop'. split; [done |]. rewrite HT.
    split; [| split].
    + rewrite swap_list_lookup by lia.
      destruct (decide (i = j)) as [->|Hne]; [done |].
      by rewrite decide_True by done.
    + by rewrite swap_list_lookup, decide_True by lia.
    + intros k Hki Hkj. by rewrite swap_list_lookup, !decide_False by lia.
  - intros Hout. destruct Hwf as (_ & _ & _ & Hl).
    unfold swap_fflies, swap.
    destruct Hout as [Hout|Hout].
    + by rewrite (aget_outside (light_values pop) (Z.of_nat i)) by lia.
    + rewrite (aget_outside (light_values pop) (Z.of_nat j)) by lia.
      by destruct (aget (light_values pop) (Z.of_nat i)).
Qed.

Lemma swap_fflies_exchanges_witness :
  wf_pop sample_pop /\
  ((0 < nfflies sample_pop)%nat -> (2 < nfflies sample_pop)%nat ->
   exists pop', swap_fflies sample_pop (Z.of_nat 0) (Z.of_nat 2) = Some pop' /\
     tuples pop' !! 0%nat = tuples sample_pop !! 2%nat /\
     tuples pop' !! 2%nat = tuples sample_pop !! 0%nat /\
     forall k, k <> 0%nat -> k <> 2%nat -> tuples pop' !! k = tuples sample_pop !! k) /\
  ((nfflies sample_pop <= 0)%nat \/ (nfflies sample_pop <= 2)%nat ->
   swap_fflies sample_pop (Z.of_nat 0) (Z.of_nat 2) = None).
Proof.
  split; [solve_wf |].
  apply (swap_fflies_exchanges sample_pop 0 2). solve_wf.
Defined.

(** X6: what [partition] establishes on the range [left, right] with the
    pivot taken at [pivot]: it returns an index of the range where the
    pivot's tuple now stands; every tuple of the range before that index
    has an intensity at or below the pivot's ([<=] holds), every tuple
    after it has not; the tuples are permuted as units and those outside
    the range are not touched. *)
Theorem partition_separates (pop : ffly_population) (left right pivot : nat) :
  wf_pop pop -> (left <= pivot <= right)%nat -> (right < nfflies pop)%nat ->
  exists (pop' : ffly_population) (idx : nat) (tp : double * double * double),
    partition pop (Z.of_nat left) (Z.of_nat right) (Z.of_nat pivot)
      = Some (pop', Z.of_nat idx) /\
    (left <= idx <= right)%nat /\
    tuples pop !! pivot = Some tp /\ tuples pop' !! idx = Some tp /\
    (forall k a, (left <= k < idx)%nat -> light_values pop' !! k = Some a ->
       (a <=? tp.2)%D = true) /\
    (forall k a, (idx < k <= right)%nat -> light_values pop' !! k = Some a ->
       (a <=? tp.2)%D = false) /\
    tuples pop' ≡ₚ tuples pop /\
    (forall k, (k < left \/ right < k)%nat -> tuples pop' !! k = tuples pop !! k) /\
    wf_pop pop' /\ nfflies pop' = nfflies pop.
Proof.
  intros Hwf Hp Hr.
  destruct (partition_spec_pivot pop left right pivot Hwf Hp Hr)
    as (pop' & idx & tp & Hpiv & Hrun & Hwf' & Hn & Hidx & Hsw & Htp & Hlow & Hhigh).
  exists pop', idx, tp. repeat (split; [done |]).
  split.
  { intros k a Hk Ha.
    destruct (tuples_lookup_light pop' k a Hwf' Ha) as (t & Ht & <-).
    by apply (Hlow k). }
  split.
  { intros k a Hk Ha.
    destruct (tuples_lookup_light pop' k a Hwf' Ha) as (t & Ht & <-).
    by apply (Hhigh k). }
  split; [by eapply swaps_perm |].
  split; [| done].
  intros k Hk. apply (swaps_outside _ _ _ _ k Hsw). lia.
Qed.

Lemma partition_separates_witness :
  wf_pop sample_pop /\
  exists (pop' : ffly_population) (idx : nat) (tp : double * double * double),
    partition sample_pop (Z.of_nat 0) (Z.of_nat 2) (Z.of_nat 1)
      = Some (pop', Z.of_nat idx) /\
    (0 <= idx <= 2)%nat /\
    tuples sample_pop !! 1%nat = Some tp /\ tuples pop' !! idx = Some tp /\
    (forall k a, (0 <= k < idx)%nat -> light_values pop' !! k = Some a ->
       (a <=? tp.2)%D = true) /\
    (forall k a, (idx < k <= 2)%nat -> light_values pop' !! k = Some a ->
       (a <=? tp.2)%D = false) /\
    tuples pop' ≡ₚ tuples sample_pop /\
    (forall k, (k < 0 \/ 2 < k)%nat -> tuples pop' !! k = tuples sample_pop !! k) /\
    wf_pop pop' /\ nfflies pop' = nfflies sample_pop.
Proof.
  split; [solve_wf |].
  apply (partition_separates sample_pop 0 2 1); first [solve_wf | simpl; lia].
Defined.

(** X7: the bound [right] is inclusive.  Called with [right] at or
    beyond the number of individuals, [partition] reads outside the arrays
    and has no result; so has [sort_flies] when it is called on 0 ..
    nfflies, as the call that the source keeps in a comment of [ffa] would
    do. *)
Theorem sort_flies_right_is_inclusive (pop : ffly_population)
    (left right pivot : Z) (fuel : nat) :
  wf_pop pop -> Z.of_nat (nfflies pop) <= right ->
  partition pop left right pivot = None /\
  ((1 <= nfflies pop)%nat ->
   sort_flies fuel pop 0 (Z.of_nat (nfflies pop)) = None).
Proof.
  intros Hwf Hright.
  assert (forall l r p, Z.of_nat (nfflies pop) <= r -> partition pop l r p = None)
    as Hpart.
  { intros l r p Hr. destruct Hwf as (_ & _ & _ & Hl).
    unfold partition, swap_fflies, swap.
    destruct (aget (light_values pop) p) as [v|]; simpl; [| done].
    by rewrite (aget_outside (light_values pop) r) by lia. }
  split; [by apply Hpart |].
  intros Hn. destruct fuel as [|fuel]; simpl;
    rewrite decide_True by lia; [done |].
  destruct (int_add 0 (Z.of_nat (nfflies pop))) as [s|]; simpl; [| done].
  by rewrite Hpart by lia.
Qed.

Lemma sort_flies_right_is_inclusive_witness :
  wf_pop sample_pop /\
  partition sample_pop 0 3 1 = None /\
  ((1 <= nfflies sample_pop)%nat ->
   sort_flies 5 sample_pop 0 (Z.of_nat (nfflies sample_pop)) = None).
Proof.
  split; [solve_wf |].
  apply (sort_flies_right_is_inclusive sample_pop 0 3 1 5); [solve_wf | simpl; lia].
Defined.

(** X8: [sort_flies] on a part [left, right] of the population orders
    that part and nothing else: the tuples outside the range stay where
    they are, those inside are permuted among themselves as units, and
    within the range no intensity is below an earlier one. *)
Theorem sort_flies_sorts_range (pop : ffly_population) (left right : nat)
    (fuel : nat) :
  wf_pop pop -> Z.of_nat (nfflies pop) <= SORT_MAX ->
  (right < nfflies pop)%nat -> (right - left <= fuel)%nat ->
  exists pop',
    sort_flies fuel pop (Z.of_nat left) (Z.of_nat right) = Some pop' /\
    tuples pop' ≡ₚ tuples pop /\
    (forall k, (k < left \/ right < k)%nat -> tuples pop' !! k = tuples pop !! k) /\
    (forall (P : double * double * double -> Prop),
       (forall k t, (left <= k <= right)%nat -> tuples pop !! k = Some t -> P t) ->
       forall k t, (left <= k <= right)%nat -> tuples pop' !! k = Some t -> P t) /\
    (forall i j a b, (left <= i)%nat -> (i < j)%nat -> (j <= right)%nat ->
       light_values pop' !! i = Some a -> light_values pop' !! j = Some b ->
       (b <? a)%D = false) /\
    wf_pop pop' /\ nfflies pop' = nfflies pop.
Proof.
  intros Hwf Hmax Hr Hfuel.
  destruct (sort_flies_spec fuel pop (Z.of_nat left) (Z.of_nat right) Hwf)
    as (pop' & Hrun & Hwf' & Hn & Hsw & Hsorted); [done | lia | lia | lia |].
  replace (Z.to_nat (Z.of_nat left)) with left in * by lia.
  replace (Z.to_nat (Z.of_nat right + 1)) with (S right) in * by lia.
  exists pop'. split; [done |]. split; [by eapply swaps_perm |].
  split; [intros k Hk; apply (swaps_outside _ _ _ _ k Hsw); lia |].
  split.
  { intros P HP k t Hk. apply (swaps_inside _ _ _ _ P Hsw); [| lia].
    intros k' t' Hk'. apply HP. lia. }
  split; [| done].
  intros i j a b Hi Hij Hj Ha Hb.
  destruct (tuples_lookup_light pop' i a Hwf' Ha) as (ta & Hta & <-).
  destruct (tuples_lookup_light pop' j b Hwf' Hb) as (tb & Htb & <-).
  apply (Hsorted i j ta tb); first [lia | done].
Qed.

Lemma sort_flies_sorts_range_witness :
  wf_pop sample_pop /\
  exists pop',
    sort_flies 1 sample_pop (Z.of_nat 1) (Z.of_nat 2) = Some pop' /\
    tuples pop' ≡ₚ tuples sample_pop /\
    (forall k, (k < 1 \/ 2 < k)%nat -> tuples pop' !! k = tuples sample_pop !! k) /\
    (forall (P : double * double * double -> Prop),
       (forall k t, (1 <= k <= 2)%nat -> tuples sample_pop !! k = Some t -> P t) ->
       forall k t, (1 <= k <= 2)%nat -> tuples pop' !! k = Some t -> P t) /\
    (forall i j a b, (1 <= i)%nat -> (i < j)%nat -> (j <= 2)%nat ->
       light_values pop' !! i = Some a -> light_values pop' !! j = Some b ->
       (b <? a)%D = false) /\
    wf_pop pop' /\ nfflies pop' = nfflies sample_pop.
Proof.
  split; [solve_wf |].
  apply (sort_flies_sorts_range sample_pop 1 2 1); first [solve_wf | simpl; lia].
Defined.

(** ** init_fflies and output_points *)

Lemma insert_next_slot (pre : list double) (n k : nat) (v : double) :
  length pre = k -> (k < n)%nat ->
  <[k := v]> (pre ++ replicate (n - k) d_zero)
  = (pre ++ [v]) ++ replicate (n - S k) d_zero.
Proof.
  intros Hlen Hk. rewrite insert_app_r_alt by lia.
  rewrite Hlen, Nat.sub_diag.
  replace (n - k)%nat with (S (n - S k)) by lia. simpl.
  by rewrite <- (assoc_L (++)).
Qed.

(** The state that [init_fflies] returns, in full. *)
Lemma init_fflies_eq (n : nat) (min max : point) (w : world) :
  Z.of_nat n <= UINT_MAX ->
  init_fflies n min max w
  = Some (Pop n (init_x (w_rng w) min max <$> seq 0 n)
                (init_y (w_rng w) min max <$> seq 0 n)
                (replicate n d_zero),
          World (w_files w)
                (Rng (rng_stream (w_rng w)) (rng_pos (w_rng w) + 2 * n))
                (w_seed w) (w_clock w) (S (w_allocated w))).
Proof.
  intros Hn. unfold init_fflies.
  set (fx := init_x (w_rng w) min max). set (fy := init_y (w_rng w) min max).
  destruct (uint_for_inv
    (fun k st => st =
       (Pop n ((fx <$> seq 0 k) ++ replicate (n - k) d_zero)
              ((fy <$> seq 0 k) ++ replicate (n - k) d_zero)
              (replicate n d_zero),
        World (w_files w)
              (Rng (rng_stream (w_rng w)) (rng_pos (w_rng w) + 2 * k))
              (w_seed w) (w_clock w) (S (w_allocated w))))
    (init_body (pt_x max - pt_x min)%D (pt_y max - pt_y min)%D min) n
    (Pop n (replicate n d_zero) (replicate n d_zero) (replicate n d_zero),
     set_allocated w (S (w_allocated w)))) as (st & Hrun & Hfin).
  - done.
  - simpl. rewrite Nat.sub_0_r, Nat.add_0_r. unfold set_allocated.
    by destruct w as [fs [str pos] sd ck al].
  - intros j t Hj ->. rewrite seq_S, !fmap_app.
    unfold init_body, set_x, set_y, set_light. simpl.
    rewrite aset_nat
      by (rewrite length_app, length_fmap, length_seq, length_replicate; lia).
    simpl.
    rewrite aset_nat
      by (rewrite length_app, length_fmap, length_seq, length_replicate; lia).
    simpl.
    rewrite aset_nat by (rewrite length_replicate; lia). simpl.
    eexists. split; [done |].
    rewrite !insert_next_slot by (rewrite ?length_fmap, ?length_seq; lia).
    rewrite insert_replicate. simpl.
    unfold set_rng, fx, fy, init_x, init_y. simpl.
    repeat f_equal; lia.
  - rewrite Hrun, Hfin. by rewrite Nat.sub_diag, !app_nil_r.
Qed.

(** X9: [init_fflies] creates a population of [ncount] individuals whose
    intensities are all 0.0 and whose coordinates are the next 2 * ncount
    values of the generator, taken in the order x[0], y[0], x[1], y[1],
    ..., each multiplied by the side of the rectangle and added to its
    lower corner; it counts one more live population and touches neither
    the files nor the seed. *)
Theorem init_fflies_draws (n : nat) (min max : point) (w : world) :
  Z.of_nat n <= UINT_MAX ->
  init_fflies n min max w
  = Some (Pop n (init_x (w_rng w) min max <$> seq 0 n)
                (init_y (w_rng w) min max <$> seq 0 n)
                (replicate n d_zero),
          World (w_files w)
                (Rng (rng_stream (w_rng w)) (rng_pos (w_rng w) + 2 * n))
                (w_seed w) (w_clock w) (S (w_allocated w))).
Proof. apply init_fflies_eq. Qed.

Lemma init_fflies_draws_witness :
  Z.of_nat 3 <= UINT_MAX /\
  init_fflies 3 unit_min unit_max empty_world
  = Some (Pop 3 (init_x (w_rng empty_world) unit_min unit_max <$> seq 0 3)
                (init_y (w_rng empty_world) unit_min unit_max <$> seq 0 3)
                (replicate 3 d_zero),
          World (w_files empty_world)
                (Rng (rng_stream (w_rng empty_world))
                     (rng_pos (w_rng empty_world) + 2 * 3))
                (w_seed empty_world) (w_clock empty_world)
                (S (w_allocated empty_world))).
Proof.
  split; [by vm_compute |].
  apply (init_fflies_draws 3 unit_min unit_max empty_world). by vm_compute.
Defined.

Section Output.

Variable fmt_2lf : double -> string.

(** X10: [output_points] replaces the file: whatever the file held, it
    holds afterwards the lines of the population and nothing else, so that
    writing the same population again changes nothing; no other file, and
    nothing else of the world, is touched. *)
Theorem output_points_overwrites (pop : ffly_population) (fname : string)
    (w : world) :
  Z.of_nat (nfflies pop) <= UINT_MAX ->
  length (x_values pop) = nfflies pop -> length (y_values pop) = nfflies pop ->
  exists w',
    output_points fmt_2lf pop fname w = Some w' /\
    w_files w' !! fname = Some (file_text fmt_2lf pop) /\
    (forall other, other <> fname -> w_files w' !! other = w_files w !! other) /\
    w_rng w' = w_rng w /\ w_allocated w' = w_allocated w /\
    output_points fmt_2lf pop fname w' = Some w'.
Proof.
  intros Hn Hx Hy. eexists.
  split; [by apply output_points_spec |]. simpl.
  split; [by rewrite lookup_insert_eq |].
  split; [intros other Hne; by rewrite lookup_insert_ne |].
  split; [done |]. split; [done |].
  rewrite output_points_spec by done. unfold set_files. simpl.
  by rewrite insert_insert_eq.
Qed.



End Output.

Lemma output_points_overwrites_witness :
  Z.of_nat (nfflies sample_pop) <= UINT_MAX /\
  exists w',
    output_points const_fmt sample_pop "start.dat" other_world = Some w' /\
    w_files w' !! "start.dat" = Some (file_text const_fmt sample_pop) /\
    (forall other, other <> "start.dat"%string ->
       w_files w' !! other = w_files other_world !! other) /\
    w_rng w' = w_rng other_world /\ w_allocated w' = w_allocated other_world /\
    output_points const_fmt sample_pop "start.dat" w' = Some w'.
Proof.
  split; [by vm_compute |].
  apply (output_points_overwrites const_fmt sample_pop "start.dat" other_world);
    first [by vm_compute | reflexivity].
Defined.

(** ** Who moves, and how many values a movement call draws *)

Section MovementMore.

Variable exp : double -> double.

Lemma spec_inner_rest (alpha gamma : double) (i : nat) (li : double)
    (prev : list (point * double)) :
  forall (j : nat) (cur : point) (g : rng),
    (forall k q, prev !! k = Some q -> (j + k)%nat <> i -> (li <? q.2)%D = false) ->
    spec_inner exp alpha gamma i li j prev cur g = (cur, g).
Proof.
  induction prev as [|q prev IH]; intros j cur g Hdim; simpl; [done |].
  assert (spec_pair exp alpha gamma i j li q cur g = (cur, g)) as ->.
  { unfold spec_pair. destruct (decide (j <> i)) as [Hne|]; [| done].
    by rewrite (Hdim O q) by (done || lia). }
  apply IH. intros k q' Hk Hne. apply (Hdim (S k) q'); [done | lia].
Qed.

Lemma spec_outer_rest (alpha gamma : double) (prev cur : list (point * double)) :
  forall (i : nat) (g : rng),
    (forall k p li, cur !! k = Some (p, li) ->
       forall m q, prev !! m = Some q -> m <> (i + k)%nat -> (li <? q.2)%D = false) ->
    spec_outer exp alpha gamma i cur prev g = (cur.*1, g).
Proof.
  induction cur as [|[p li] cur IH]; intros i g Hdim; simpl; [done |].
  rewrite spec_inner_rest.
  2:{ intros k q Hk Hne. apply (Hdim O p li eq_refl k q Hk). lia. }
  rewrite IH; [done |].
  intros k p' li' Hk m q Hm Hne. apply (Hdim (S k) p' li' Hk m q Hm). lia.
Qed.

Lemma individuals_positions (p : ffly_population) :
  wf_pop p ->
  pt_x <$> (individuals p).*1 = x_values p /\
  pt_y <$> (individuals p).*1 = y_values p /\
  (individuals p).*2 = light_values p.
Proof.
  intros (_ & Hx & Hy & Hl). unfold individuals.
  rewrite fst_zip by (rewrite length_zip_with; lia).
  rewrite snd_zip by (rewrite length_zip_with; lia).
  split; [| split; [| done]]; apply list_eq; intros i;
    rewrite list_lookup_fmap, lookup_zip_with;
    destruct (x_values p !! i) as [x|] eqn:Hxi; simpl.
  - destruct (lookup_lt_is_Some_2 (y_values p) i) as [y Hyi];
      [apply lookup_lt_Some in Hxi; lia |]. by rewrite Hyi.
  - done.
  - destruct (lookup_lt_is_Some_2 (y_values p) i) as [y Hyi];
      [apply lookup_lt_Some in Hxi; lia |]. by rewrite Hyi.
  - apply lookup_ge_None_1 in Hxi. by rewrite lookup_ge_None_2 by lia.
Qed.

(** X12: an individual that no other individual of the snapshot outshines
    is not attracted: it leaves the two loops of [move_fflies] at the
    position it had, whatever the others do. *)
Theorem move_loops_keeps_brightest (alpha gamma : double)
    (cur prev : ffly_population) (g : rng) (i : nat) (li : double) :
  wf_pop cur -> wf_pop prev -> nfflies prev = nfflies cur ->
  light_values cur !! i = Some li ->
  (forall j lj, j <> i -> light_values prev !! j = Some lj -> (li <? lj)%D = false) ->
  exists st,
    move_loops exp alpha gamma cur prev g = Some st /\
    x_values (ms_pop st) !! i = x_values cur !! i /\
    y_values (ms_pop st) !! i = y_values cur !! i.
Proof.
  intros Hwf Hwfp Hn Hli Hdim.
  exists (spec_move exp alpha gamma cur prev g).
  split; [by apply move_loops_spec |].
  pose proof (lookup_lt_Some _ _ _ Hli) as Hi.
  destruct Hwf as (Hmax & Hx & Hy & Hl).
  destruct (lookup_lt_is_Some_2 (x_values cur) i) as [xi Hxi]; [lia |].
  destruct (lookup_lt_is_Some_2 (y_values cur) i) as [yi Hyi]; [lia |].
  destruct (spec_outer_lookup exp alpha gamma (individuals prev) (individuals cur)
              0 g i (Point xi yi) li) as (g' & Hps).
  { by apply individuals_lookup_2. }
  rewrite spec_inner_rest in Hps.
  2:{ intros k [q l] Hk Hne. apply individuals_lookup in Hk as (_ & _ & Hlk).
      apply (Hdim k l); [lia | done]. }
  unfold spec_move.
  destruct (spec_outer exp alpha gamma 0 _ _ g) as [ps g'']. simpl in *.
  by rewrite !list_lookup_fmap, Hps, Hxi, Hyi.
Qed.

(** X13: when no individual is below the snapshot intensity of another
    one, a movement call is at rest: the two loops leave the population
    exactly as it was and draw no random value.  This is the case of every
    population of fewer than two individuals. *)
Theorem move_loops_at_rest (alpha gamma : double)
    (cur prev : ffly_population) (g : rng) :
  wf_pop cur -> wf_pop prev -> nfflies prev = nfflies cur ->
  (forall i j li lj, j <> i ->
     light_values cur !! i = Some li -> light_values prev !! j = Some lj ->
     (li <? lj)%D = false) ->
  move_loops exp alpha gamma cur prev g = Some (MoveState cur prev g).
Proof.
  intros Hwf Hwfp Hn Hdim. rewrite move_loops_spec by done.
  unfold spec_move. rewrite spec_outer_rest.
  - destruct (individuals_positions cur Hwf) as (Hx' & Hy' & _).
    destruct cur as [n xs ys ls]. simpl in *.
    do 3 f_equal; [exact Hx' | exact Hy'].
  - intros k p li Hk m [q lj] Hm Hne.
    apply individuals_lookup in Hk as (_ & _ & Hlk).
    apply individuals_lookup in Hm as (_ & _ & Hlm).
    apply (Hdim k m li lj); [lia | done | done].
Qed.

(** X14: a population of fewer than two individuals never moves in the
    two loops and draws no random value, whatever its intensities. *)
Theorem move_loops_single (alpha gamma : double)
    (cur prev : ffly_population) (g : rng) :
  wf_pop cur -> wf_pop prev -> nfflies prev = nfflies cur ->
  (nfflies cur <= 1)%nat ->
  move_loops exp alpha gamma cur prev g = Some (MoveState cur prev g).
Proof.
  intros Hwf Hwfp Hn Hone. rewrite move_loops_spec by done.
  unfold spec_move. rewrite spec_outer_rest.
  - destruct (individuals_positions cur Hwf) as (Hx' & Hy' & _).
    destruct cur as [n xs ys ls]. simpl in *.
    do 3 f_equal; [exact Hx' | exact Hy'].
  - intros k p li Hk m q Hm Hne. exfalso.
    apply lookup_lt_Some in Hk. apply lookup_lt_Some in Hm.
    rewrite individuals_length in Hk, Hm by done. lia.
Qed.

Lemma spec_inner_draws (alpha gamma : double) (i : nat) (li : double)
    (prev : list (point * double)) :
  forall (j : nat) (cur : point) (g : rng),
    rng_stream (spec_inner exp alpha gamma i li j prev cur g).2 = rng_stream g /\
    rng_pos (spec_inner exp alpha gamma i li j prev cur g).2
    = (rng_pos g
       + 2 * length (filter (fun p : nat * double => p.1 <> i /\ (li <? p.2)%D = true)
                      (imap (fun k (q : point * double) => ((j + k)%nat, q.2)) prev)))%nat.
Proof.
  induction prev as [|q prev IH]; intros j cur g.
  - simpl. split; [done | lia].
  - rewrite imap_cons, filter_cons.
    rewrite (imap_ext _ (fun k (q : point * double) => ((S j + k)%nat, q.2)))
      by (intros k x _; simpl; f_equal; lia).
    simpl. unfold spec_pair.
    destruct (decide (j <> i)) as [Hne|Heq].
    + destruct (li <? q.2)%D eqn:Hlt.
      * rewrite decide_True by (simpl; split; [lia | done]).
        unfold spec_update, my_rand. simpl.
        destruct (IH (S j)
          (Point (spec_blend alpha (spec_beta exp gamma (spec_distance cur q.1))
                    (pt_x cur) (pt_x q.1) (rng_stream g (rng_pos g)))
                 (spec_blend alpha (spec_beta exp gamma (spec_distance cur q.1))
                    (pt_y cur) (pt_y q.1) (rng_stream g (S (rng_pos g)))))
          (Rng (rng_stream g) (S (S (rng_pos g))))) as [Hs Hp].
        split; [exact Hs |]. rewrite Hp. simpl. lia.
      * rewrite decide_False by (simpl; intros [_ ?]; congruence).
        apply IH.
    + rewrite decide_False by (simpl; intros [? _]; lia).
      apply IH.
Qed.

Lemma spec_inner_draws_count (alpha gamma : double) (i : nat) (li : double)
    (prev : list (point * double)) (cur : point) (g : rng) :
  rng_stream (spec_inner exp alpha gamma i li 0 prev cur g).2 = rng_stream g /\
  rng_pos (spec_inner exp alpha gamma i li 0 prev cur g).2
  = (rng_pos g + 2 * brighter_than i li prev.*2)%nat.
Proof.
  destruct (spec_inner_draws alpha gamma i li prev 0 cur g) as [Hs Hp].
  split; [done |]. rewrite Hp. unfold brighter_than.
  rewrite imap_fmap. reflexivity.
Qed.

Lemma spec_outer_draws (alpha gamma : double) (prev cur : list (point * double)) :
  forall (i : nat) (g : rng),
    rng_stream (spec_outer exp alpha gamma i cur prev g).2 = rng_stream g /\
    rng_pos (spec_outer exp alpha gamma i cur prev g).2
    = (rng_pos g
       + 2 * sum_list (imap (fun k (c : point * double) =>
                               brighter_than (i + k) c.2 prev.*2) cur))%nat.
Proof.
  induction cur as [|[p li] cur IH]; intros i g.
  - simpl. split; [done | lia].
  - rewrite imap_cons.
    rewrite (imap_ext _ (fun k (c : point * double) =>
                           brighter_than (S i + k) c.2 prev.*2))
      by (intros k x _; simpl; f_equal; lia).
    simpl.
    destruct (spec_inner_draws_count alpha gamma i li prev p g) as [Hs1 Hp1].
    destruct (spec_inner exp alpha gamma i li 0 prev p g) as [p' g1].
    destruct (IH (S i) g1) as [Hs2 Hp2].
    destruct (spec_outer exp alpha gamma (S i) cur prev g1) as [ps g2].
    simpl in *. split; [congruence |].
    replace (i + 0)%nat with i by lia. rewrite Hp2, Hp1. lia.
Qed.

(** X15: a movement call draws exactly two random values for each pair
    (i, j), j <> i, in which the current intensity of i is below the
    snapshot intensity of j, and none otherwise; the recorded sequence
    itself is not changed. *)
Theorem move_loops_draws (alpha gamma : double)
    (cur prev : ffly_population) (g : rng) :
  wf_pop cur -> wf_pop prev -> nfflies prev = nfflies cur ->
  exists st,
    move_loops exp alpha gamma cur prev g = Some st /\
    rng_stream (ms_rng st) = rng_stream g /\
    rng_pos (ms_rng st)
    = (rng_pos g + 2 * attractions (light_values cur) (light_values prev))%nat.
Proof.
  intros Hwf Hwfp Hn.
  exists (spec_move exp alpha gamma cur prev g).
  split; [by apply move_loops_spec |].
  destruct (spec_outer_draws alpha gamma (individuals prev) (individuals cur) 0 g)
    as [Hs Hp].
  unfold spec_move.
  destruct (spec_outer exp alpha gamma 0 _ _ g) as [ps g']. simpl in *.
  split; [done |]. rewrite Hp. unfold attractions.
  destruct (individuals_positions cur Hwf) as (_ & _ & <-).
  destruct (individuals_positions prev Hwfp) as (_ & _ & ->).
  rewrite imap_fmap. do 3 f_equal.
Qed.

End MovementMore.

Lemma move_loops_keeps_brightest_witness :
  wf_pop sample_pop /\ wf_pop sample_pop /\
  light_values sample_pop !! 0%nat = Some d_one /\
  exists st,
    move_loops const_exp d_0_2 d_one sample_pop sample_pop half_rng = Some st /\
    x_values (ms_pop st) !! 0%nat = x_values sample_pop !! 0%nat /\
    y_values (ms_pop st) !! 0%nat = y_values sample_pop !! 0%nat.
Proof.
  split; [solve_wf |]. split; [solve_wf |]. split; [reflexivity |].
  apply (move_loops_keeps_brightest const_exp d_0_2 d_one sample_pop sample_pop
           half_rng 0 d_one); first [solve_wf | reflexivity | idtac].
  intros [|[|[|j]]] lj Hne Hlj; try done; injection Hlj as <-; by vm_compute.
Defined.

Lemma move_loops_at_rest_witness :
  wf_pop rest_pop /\ wf_pop sample_pop /\
  move_loops const_exp d_0_2 d_one rest_pop sample_pop half_rng
  = Some (MoveState rest_pop sample_pop half_rng).
Proof.
  split; [solve_wf |]. split; [solve_wf |].
  apply (move_loops_at_rest const_exp d_0_2 d_one rest_pop sample_pop half_rng);
    first [solve_wf | reflexivity | idtac].
  intros [|[|[|i]]] [|[|[|j]]] li lj Hne Hli Hlj; try done;
    injection Hli as <-; injection Hlj as <-; by vm_compute.
Defined.

Lemma move_loops_single_witness :
  wf_pop single_pop /\ wf_pop single_old /\
  move_loops const_exp d_0_2 d_one single_pop single_old half_rng
  = Some (MoveState single_pop single_old half_rng).
Proof.
  split; [solve_wf |]. split; [solve_wf |].
  apply (move_loops_single const_exp d_0_2 d_one single_pop single_old half_rng);
    first [solve_wf | reflexivity | simpl; lia].
Defined.

Lemma move_loops_draws_witness :
  wf_pop sample_pop /\ wf_pop sample_old /\
  exists st,
    move_loops const_exp d_0_2 d_one sample_pop sample_old half_rng = Some st /\
    rng_stream (ms_rng st) = rng_stream half_rng /\
    rng_pos (ms_rng st)
    = (rng_pos half_rng
       + 2 * attractions (light_values sample_pop) (light_values sample_old))%nat.
Proof.
  split; [solve_wf |]. split; [solve_wf |].
  apply (move_loops_draws const_exp d_0_2 d_one sample_pop sample_old half_rng);
    first [solve_wf | reflexivity].
Defined.

Example attractions_sample :
  attractions (light_values sample_pop) (light_values sample_old) = 3%nat.
Proof. reflexivity. Qed.

(** ** The iterations of the driver *)

Section DriverMore.

Variable exp : double -> double.
Variable fmt_2lf : double -> string.

(** X16: one iteration of [ffa] first copies the population, positions
    and intensities, into the snapshot, and only then has the objective
    function evaluate it: the snapshot that the movement uses, and that the
    iteration leaves behind, is the population as the iteration found it,
    with the intensities of the evaluation before.  The movement does not
    evaluate again: the intensities after the iteration are those that the
    objective function gave before the move.  Files and the count of live
    populations are not touched. *)
Theorem ffa_body_snapshot (size : nat) (f : obj_func) (alpha gamma : double)
    (min max : point) (i : Z) (st : run) :
  keeps_shape f ->
  wf_pop (r_fflies st) -> wf_pop (r_fflies_old st) ->
  nfflies (r_fflies st) = size -> nfflies (r_fflies_old st) = size ->
  exists r,
    ffa_body exp size f alpha gamma min max i st = Some r /\
    r_fflies_old r = r_fflies st /\
    light_values (r_fflies r) = light_values (f (r_fflies st)) /\
    wf_pop (r_fflies r) /\ nfflies (r_fflies r) = size /\
    w_files (r_world r) = w_files (r_world st) /\
    w_allocated (r_world r) = w_allocated (r_world st).
Proof.
  intros Hf Hwf Hwfo Hn Hno.
  destruct (Hf _ Hwf) as [Hwff Hnf].
  destruct (ffa_body_spec exp size f alpha gamma min max i st)
    as (pop' & Hmove & Hbody & Hwf' & Hn'); try done.
  destruct (move_fflies_eq exp alpha gamma min max (f (r_fflies st)) (r_fflies st)
              (w_rng (r_world st))) as (pop'' & _ & Hmove' & _ & _ & Hl);
    [done | done | done |].
  rewrite Hmove in Hmove'. injection Hmove' as <-.
  eexists. split; [exact Hbody |]. simpl. by repeat (split; [done |]).
Qed.

(** A whole run, with what it leaves of both populations. *)
Lemma ffa_runs_sizes (n T : nat) (min max : point) (f : obj_func) (w : world) :
  Z.of_nat n <= INT_MAX -> Z.of_nat T <= UINT_MAX -> keeps_shape f ->
  exists r,
    ffa exp fmt_2lf n T min max f w = Some r /\
    wf_pop (r_fflies r) /\ wf_pop (r_fflies_old r) /\
    nfflies (r_fflies r) = n /\ nfflies (r_fflies_old r) = n.
Proof.
  intros Hn HT Hf.
  assert (Z.of_nat n <= UINT_MAX) as Hn' by (unfold INT_MAX, UINT_MAX in *; lia).
  destruct (init_fflies_spec n min max (set_seed w (w_clock w)) Hn')
    as (fflies & w1 & Hi1 & Hfr1).
  destruct (init_fflies_spec n min max w1 Hn') as (fflies_old & w2 & Hi2 & Hfr2).
  pose proof (init_frame_wf n _ _ Hn Hfr1) as Hwf1.
  pose proof (init_frame_wf n _ _ Hn Hfr2) as Hwf2.
  destruct Hfr1 as (Hn1 & Hx1 & Hy1 & _).
  destruct Hfr2 as (Hn2 & _).
  simpl in *.
  set (w3 := set_files w2 (<["start.dat" := file_text fmt_2lf fflies]> (w_files w2))).
  destruct (uint_for_inv
    (fun (k : nat) st =>
       wf_pop (r_fflies st) /\ wf_pop (r_fflies_old st) /\
       nfflies (r_fflies st) = n /\ nfflies (r_fflies_old st) = n)
    (ffa_body exp n f d_0_2 d_one min max) T (Run fflies fflies_old w3))
    as (st & Hloop & Hwfr & Hwfo & Hnr & Hno).
  - done.
  - done.
  - intros j t Hj (Hwft & Hwfto & Hnt & Hnto).
    destruct (ffa_body_spec exp n f d_0_2 d_one min max (Z.of_nat j) t)
      as (pop' & _ & Hbody & Hwf' & Hn''); try done.
    eexists. split; [exact Hbody |]. simpl.
    repeat (split; [done |]). done.
  - eexists.
    unfold ffa. rewrite Hi1. simpl. rewrite Hi2. simpl.
    rewrite output_points_spec by (rewrite ?Hn1; done). simpl.
    fold w3. rewrite Hloop. simpl.
    pose proof Hwfr as (Hmaxr & Hxr & Hyr & _).
    rewrite output_points_spec
      by (rewrite ?Hnr; first [done | unfold INT_MAX, UINT_MAX in *; lia]).
    simpl. by repeat (split; [done |]).
Qed.

(** X17: the size of the population is kept throughout a run: at the
    end of [ffa], after any number of iterations, the population and the
    snapshot both have [nfireflies] individuals and three arrays of that
    length each. *)
Theorem ffa_keeps_sizes (n T : nat) (min max : point) (f : obj_func) (w : world) :
  Z.of_nat n <= INT_MAX -> Z.of_nat T <= UINT_MAX -> keeps_shape f ->
  exists r,
    ffa exp fmt_2lf n T min max f w = Some r /\
    nfflies (r_fflies r) = n /\
    length (x_values (r_fflies r)) = n /\ length (y_values (r_fflies r)) = n /\
    length (light_values (r_fflies r)) = n /\
    nfflies (r_fflies_old r) = n /\
    length (x_values (r_fflies_old r)) = n /\
    length (y_values (r_fflies_old r)) = n /\
    length (light_values (r_fflies_old r)) = n.
Proof.
  intros Hn HT Hf.
  destruct (ffa_runs_sizes n T min max f w Hn HT Hf)
    as (r & Hrun & (_ & Hx & Hy & Hl) & (_ & Hxo & Hyo & Hlo) & Hnr & Hno).
  exists r. rewrite Hnr in *. rewrite Hno in *. by repeat (split; [done |]).
Qed.

(** X18: start.dat does not depend on the objective function or on the
    number of iterations: two runs of [ffa] from the same world with the
    same population size and rectangle write the same start.dat, whatever
    else differs between them. *)
Theorem ffa_start_file (n T T' : nat) (min max : point) (f f' : obj_func)
    (w : world) :
  Z.of_nat n <= INT_MAX -> Z.of_nat T <= UINT_MAX -> Z.of_nat T' <= UINT_MAX ->
  keeps_shape f -> keeps_shape f' ->
  exists r r' text,
    ffa exp fmt_2lf n T min max f w = Some r /\
    ffa exp fmt_2lf n T' min max f' w = Some r' /\
    w_files (r_world r) !! "start.dat" = Some text /\
    w_files (r_world r') !! "start.dat" = Some text.
Proof.
  intros Hn HT HT' Hf Hf'.
  destruct (ffa_runs exp fmt_2lf n T min max f w Hn HT Hf)
    as (fflies & w1 & fo & w2 & r & Hi & _ & Hrun & _ & _ & _ & Hfiles).
  destruct (ffa_runs exp fmt_2lf n T' min max f' w Hn HT' Hf')
    as (fflies' & w1' & fo' & w2' & r' & Hi' & _ & Hrun' & _ & _ & _ & Hfiles').
  rewrite Hi in Hi'. injection Hi' as <- <-.
  exists r, r', (file_text fmt_2lf fflies).
  split; [done |]. split; [done |].
  rewrite Hfiles, Hfiles'.
  split; rewrite lookup_insert_ne by done; by rewrite lookup_insert_eq.
Qed.

End DriverMore.

Lemma ffa_body_snapshot_witness :
  keeps_shape same_obj /\ wf_pop sample_pop /\ wf_pop sample_old /\
  exists r,
    ffa_body const_exp 3 same_obj d_0_2 d_one unit_min unit_max 0
      (Run sample_pop sample_old empty_world) = Some r /\
    r_fflies_old r = sample_pop /\
    light_values (r_fflies r) = light_values (same_obj sample_pop) /\
    wf_pop (r_fflies r) /\ nfflies (r_fflies r) = 3%nat /\
    w_files (r_world r) = w_files empty_world /\
    w_allocated (r_world r) = w_allocated empty_world.
Proof.
  split; [exact keeps_shape_same_obj |]. split; [solve_wf |]. split; [solve_wf |].
  apply (ffa_body_snapshot const_exp 3 same_obj d_0_2 d_one unit_min unit_max 0
           (Run sample_pop sample_old empty_world));
    first [exact keeps_shape_same_obj | solve_wf | reflexivity].
Defined.

Lemma ffa_keeps_sizes_witness :
  keeps_shape same_obj /\
  exists r,
    ffa const_exp const_fmt 3 2 unit_min unit_max same_obj empty_world = Some r /\
    nfflies (r_fflies r) = 3%nat /\
    length (x_values (r_fflies r)) = 3%nat /\ length (y_values (r_fflies r)) = 3%nat /\
    length (light_values (r_fflies r)) = 3%nat /\
    nfflies (r_fflies_old r) = 3%nat /\
    length (x_values (r_fflies_old r)) = 3%nat /\
    length (y_values (r_fflies_old r)) = 3%nat /\
    length (light_values (r_fflies_old r)) = 3%nat.
Proof.
  split; [exact keeps_shape_same_obj |].
  apply (ffa_keeps_sizes const_exp const_fmt 3 2 unit_min unit_max same_obj
           empty_world);
    [by vm_compute | by vm_compute | exact keeps_shape_same_obj].
Defined.

Lemma keeps_shape_dim_obj : keeps_shape dim_obj.
Proof.
  intros p (Hn & Hx & Hy & Hl). unfold dim_obj. simpl.
  repeat split; simpl; rewrite ?length_fmap; done.
Defined.

Lemma ffa_start_file_witness :
  keeps_shape same_obj /\ keeps_shape dim_obj /\
  exists r r' text,
    ffa const_exp const_fmt 3 0 unit_min unit_max same_obj empty_world = Some r /\
    ffa const_exp const_fmt 3 2 unit_min unit_max dim_obj empty_world = Some r' /\
    w_files (r_world r) !! "start.dat" = Some text /\
    w_files (r_world r') !! "start.dat" = Some text.
Proof.
  split; [exact keeps_shape_same_obj |]. split; [exact keeps_shape_dim_obj |].
  apply (ffa_start_file const_exp const_fmt 3 0 2 unit_min unit_max
           same_obj dim_obj empty_world);
    [by vm_compute | by vm_compute | by vm_compute
    | exact keeps_shape_same_obj | exact keeps_shape_dim_obj].
Defined.

(** ** More on fix_positions and on the start of a run *)

Lemma clamp_below (lo hi v : double) :
  (lo <=? hi)%D = true -> (v <? lo)%D = true -> clamp lo hi v = lo.
Proof.
  intros Hle Hlt. pose proof (d_le_not_lt _ _ Hle) as Hn.
  unfold clamp, d_gt, d_lt in *. by rewrite Hlt, Hn.
Qed.

Lemma clamp_above (lo hi v : double) :
  (lo <=? hi)%D = true -> (hi <? v)%D = true -> clamp lo hi v = hi.
Proof.
  intros Hle Hlt. unfold clamp, d_gt.
  destruct (v <? lo)%D eqn:E1.
  - (* v < lo <= hi < v is impossible *)
    pose proof (d_lt_le _ _ E1) as H1.
    pose proof (d_le_trans _ _ _ H1 Hle) as H2.
    pose proof (d_le_not_lt _ _ H2) as H3. congruence.
  - unfold d_lt in *. by rewrite Hlt.
Qed.

(** X19: in a rectangle with ordered corners [fix_positions] moves a
    coordinate that lies outside to the bound it crossed: an x below min.x
    becomes exactly min.x, an x above max.x exactly max.x, and likewise on
    the y axis. *)
Theorem fix_positions_nearest_bound (pop : ffly_population) (min max : point) :
  wf_pop pop -> ordered_rect min max ->
  exists p', fix_positions pop min max = Some p' /\
    (forall i v, x_values pop !! i = Some v ->
       ((v <? pt_x min)%D = true -> x_values p' !! i = Some (pt_x min)) /\
       ((v >? pt_x max)%D = true -> x_values p' !! i = Some (pt_x max))) /\
    (forall i v, y_values pop !! i = Some v ->
       ((v <? pt_y min)%D = true -> y_values p' !! i = Some (pt_y min)) /\
       ((v >? pt_y max)%D = true -> y_values p' !! i = Some (pt_y max))).
Proof.
  intros Hwf [Hx Hy]. eexists. split; [by apply fix_positions_eq |].
  split; intros i v Hv; simpl; rewrite list_lookup_fmap, Hv; simpl;
    (split; intros Hout; f_equal; [by apply clamp_below | by apply clamp_above]).
Qed.

Lemma fix_positions_nearest_bound_witness :
  wf_pop sample_pop /\ ordered_rect unit_min unit_max /\
  exists p', fix_positions sample_pop unit_min unit_max = Some p' /\
    (forall i v, x_values sample_pop !! i = Some v ->
       ((v <? pt_x unit_min)%D = true -> x_values p' !! i = Some (pt_x unit_min)) /\
       ((v >? pt_x unit_max)%D = true -> x_values p' !! i = Some (pt_x unit_max))) /\
    (forall i v, y_values sample_pop !! i = Some v ->
       ((v <? pt_y unit_min)%D = true -> y_values p' !! i = Some (pt_y unit_min)) /\
       ((v >? pt_y unit_max)%D = true -> y_values p' !! i = Some (pt_y unit_max))).
Proof.
  split; [solve_wf |]. split; [by vm_compute |].
  apply (fix_positions_nearest_bound sample_pop unit_min unit_max);
    [solve_wf | by vm_compute].
Defined.


